(** * kdtree: a shallow embedding of kdtree.h, build_kdtree.cpp and
      query_kdtree.cpp

    The first part embeds the code: the point and node types, the build of
    a tree by median splits ([KDNode::build], [KDTree::build]), the
    nearest-neighbour search ([KDNode::nearestNeighbor],
    [KDTree::nearestNeighbor]), the text serialization and deserialization
    ([operator<<], [operator>>], [intFromStream]) and [bruteForceClosest].
    The second part proves what the built trees look like, that the search
    finds a point at the least computed distance, and that a written tree of
    finite coordinates is read back unchanged.
    The two drivers, [main] of build_kdtree.cpp and [main] of
    query_kdtree.cpp with [readPointsFromFile], are embedded over files given
    as streams, and their exit statuses and output files are related to the
    functions they call.

    Modelling conventions.

    - The model is that of the instantiation [KDTree<double>] of the two
      drivers: [T] and [double] are one type.  Its values are coded as
      integers ([Z]) that compare as the values do.  [numeric_limits<T>::max()]
      is the parameter [T_max]; an integer beyond [T_max] in magnitude stands
      for an infinity ([finite_value]).  A NaN has no code: it is outside the
      model, as the comparisons of the build are no order on it.
    - The arithmetic on these values is not taken to be exact.  The
      subtraction, the multiplication and the addition of the code are the
      operations of a structure [arith], of which the theorems assume no more
      than the laws [arith_ok], which hold of IEEE 754 arithmetic with
      rounding to nearest on finite operands: results may be rounded, may
      overflow to an infinity and may underflow to zero.  Exact integer
      arithmetic ([arith_exact]) is one such structure, and the arithmetic of
      [double] on whole numbers ([arith_double], 53 significant bits, ties to
      even) is another; both can be evaluated.
    - [int] and [size_t] values are [Z] and [nat]; container sizes beyond
      the machine range are outside the model.  The one conversion of an
      [int] that may be negative to [size_t], in [KDNode::build], is
      written out, and so is the range of [int] where a number is read from
      a stream.
    - [std::unique_ptr<KDNode<T>>] is [option KDNode]; [nullptr] is [None].
    - A stream is the list of its text lines and a line is the list of the
      numeric tokens on it.  Formatted output and input agree on an [int]
      and on a finite value of [T], which is what
      [out.precision(max_digits10)] is there for; the text written for an
      infinity is not read back as a number, and neither is a token outside
      the range of the type read.
    - Reading a vector or dereferencing an iterator out of range has no
      defined behaviour in C++; the model returns [Undefined] there.
      Assertions are enabled: a failed [assert] returns [Abort].
      Allocation never fails, so no exception is thrown.
    - [std::nth_element] is a parameter constrained by the contract the C++
      standard gives it ([nth_element_ok]); [nth_element_sort] is one
      admissible instance, used to evaluate the model on concrete inputs. *)

From Stdlib Require Import ZArith Lia.
From stdpp Require Import base tactics option list sorting strings.

Local Open Scope Z_scope.

(** ** Outcomes of a call *)

Inductive outcome (A : Type) : Type :=
  | Ok (a : A)
  | Abort
  | Undefined.
Arguments Ok {A} a.
Arguments Abort {A}.
Arguments Undefined {A}.

#[global] Instance outcome_ret : MRet outcome := λ A a, Ok a.
#[global] Instance outcome_bind : MBind outcome := λ A B f m,
  match m with
  | Ok a => f a
  | Abort => Abort
  | Undefined => Undefined
  end.

Definition outcome_to_option {A} (m : outcome A) : option A :=
  match m with
  | Ok a => Some a
  | _ => None
  end.

Definition from_option {A} (o : option A) : outcome A :=
  match o with
  | Some a => Ok a
  | None => Undefined
  end.

(** [v[i]] for a [std::vector] and an [int] index: unchecked in C++. *)
Definition at_ {A} (v : list A) (i : Z) : outcome A :=
  if bool_decide (0 ≤ i) then from_option (v !! Z.to_nat i) else Undefined.

(** The conversion of an [int] to [size_t], as in [(axis + 1) % size]. *)
Definition size_t_of_int (z : Z) : Z := z `mod` 2 ^ 64.

(** ** The arithmetic of [T] and [double] *)

(** The operations the code applies to coordinates and distances: [a - b],
    [a * b] and [a + b] (in [dist += ...]). *)
Record arith : Type := mkArith {
  num_sub : Z → Z → Z;
  num_mul : Z → Z → Z;
  num_add : Z → Z → Z
}.

(** A value that is neither infinity, given [numeric_limits<T>::max()]. *)
Definition finite_value (T_max : Z) (x : Z) : bool :=
  bool_decide (- T_max ≤ x ≤ T_max).

(** A vector of finite values. *)
Definition finite_point (T_max : Z) (p : list Z) : Prop :=
  Forall (λ x, finite_value T_max x = true) p.

(** The range of [int]. *)
Definition INT_MIN : Z := - 2 ^ 31.
Definition INT_MAX : Z := 2 ^ 31 - 1.

(** ** Data model (kdtree.h, lines 18-108) *)

Record IndexedPoint : Type := mkIndexedPoint {
  index : Z;
  point : list Z
}.

(** [IndexedPoint()] *)
Definition IndexedPoint_default : IndexedPoint := mkIndexedPoint (-1) [].

#[local] Unset Elimination Schemes.
Inductive KDNode : Type := mkKDNode {
  _axis : Z;
  _location : IndexedPoint;
  _leftNode : option KDNode;
  _rightNode : option KDNode
}.
#[local] Set Elimination Schemes.

(** The private constructor [KDNode(int axis)]: the location is that of
    [IndexedPoint()] and both children are null. *)
Definition KDNode_new_axis (axis : Z) : KDNode :=
  mkKDNode axis IndexedPoint_default None None.

Record KDTree : Type := mkKDTree {
  _rootNode : option KDNode
}.

(** [KDTree()] *)
Definition KDTree_new : KDTree := mkKDTree None.

#[global] Instance IndexedPoint_eq_dec : EqDecision IndexedPoint.
Proof. solve_decision. Defined.

(** ** Helper functions (kdtree.h, lines 117-149) *)

(** [IndexedPointCompare(in_axis)(i, j)] *)
Definition IndexedPointCompare (in_axis : Z) (i j : IndexedPoint)
    : outcome bool :=
  x ← at_ (point i) in_axis;
  y ← at_ (point j) in_axis;
  Ok (bool_decide (x < y)).

(** The loop body of [squaredDistance], run over the indices [iis]. *)
Fixpoint sq_loop (ar : arith) (a b : list Z) (iis : list nat) (dist : Z)
    : outcome Z :=
  match iis with
  | [] => Ok dist
  | ii :: iis' =>
      x ← at_ a (Z.of_nat ii);
      y ← at_ b (Z.of_nat ii);
      sq_loop ar a b iis'
        (num_add ar dist (num_mul ar (num_sub ar x y) (num_sub ar x y)))
  end.

Definition squaredDistance (ar : arith) (a b : list Z) : outcome Z :=
  if bool_decide (length a = length b)
  then sq_loop ar a b (seq 0 (length a)) 0
  else Abort.

(** ** std::nth_element *)

Definition nth_element_t : Type :=
  (IndexedPoint → IndexedPoint → bool) → nat →
  list IndexedPoint → list IndexedPoint.

(** The comparison handed to [nth_element].  It is used on ranges on which
    [IndexedPointCompare] is defined: [nth_element] compares every element
    of a range of two or more, so [KDNode::build] on a range with a point
    that has no coordinate on the axis reads that point out of range. *)
Definition comp_of (axis : Z) (i j : IndexedPoint) : bool :=
  match IndexedPointCompare axis i j with
  | Ok b => b
  | _ => false
  end.

Definition has_coord (axis : Z) (p : IndexedPoint) : bool :=
  match at_ (point p) axis with
  | Ok _ => true
  | _ => false
  end.

(** ** KDNode::build (kdtree.h, lines 356-399)

    The iterator range [start, end) is the list of its elements; the two
    recursive calls work on disjoint parts of the vector, so each gets its
    part as a list.  [fuel] bounds the recursion depth; [build_fuel_total]
    below shows that the fuel [KDNode_build] gives is always enough. *)

(** A child built by a recursive call [rec], when the guard [present] of
    the [if] around it holds; the pointer stays null otherwise. *)
Definition build_child (rec : list IndexedPoint → Z → option (outcome KDNode))
    (present : bool) (sub : list IndexedPoint) (axis : Z)
    : option (outcome (option KDNode)) :=
  if present
  then r ← rec sub axis; Some (n ← r; Ok (Some n))
  else Some (Ok None).

Section Build.
Variable nth_element : nth_element_t.

(** The body of [KDNode::build], with [rec] for its recursive calls. *)
Definition build_step (rec : list IndexedPoint → Z → option (outcome KDNode))
    (range : list IndexedPoint) (axis : Z) : option (outcome KDNode) :=
  match range with
  | [] => Some Undefined
  | start :: _ =>
      let size := length (point start) in
      if bool_decide (size = 0%nat) then Some Undefined else
      let axis_ := size_t_of_int (axis + 1) `mod` Z.of_nat size in
      let dataSize := length range in
      if bool_decide (dataSize < 2)%nat
      then Some (Ok (mkKDNode axis_ start None None))
      else
        let median := (dataSize / 2)%nat in
        if negb (forallb (has_coord axis_) range) then Some Undefined else
        let range' := nth_element (comp_of axis_) median range in
        match range' !! median with
        | None => Some Undefined
        | Some location =>
            l ← build_child rec (bool_decide (0%nat ≠ median))
                  (take median range') axis_;
            r ← build_child rec (bool_decide (median ≠ dataSize))
                  (drop median range') axis_;
            Some (leftNode ← l; rightNode ← r;
                  Ok (mkKDNode axis_ location leftNode rightNode))
        end
  end.

Fixpoint build_fuel (fuel : nat)
    : list IndexedPoint → Z → option (outcome KDNode) :=
  match fuel with
  | O => λ _ _, None
  | S fuel' => build_step (build_fuel fuel')
  end.

Definition KDNode_build (range : list IndexedPoint) (axis : Z)
    : outcome KDNode :=
  match build_fuel (S (length range)) range axis with
  | Some r => r
  | None => Undefined
  end.
End Build.

(** ** KDNode::nearestNeighbor (kdtree.h, lines 402-445) *)

Definition is_null {A} (p : option A) : bool :=
  match p with
  | None => true
  | Some _ => false
  end.

Fixpoint KDNode_nearestNeighbor (ar : arith) (node : KDNode)
    (queryPoint : list Z) (st : IndexedPoint * Z) {struct node}
    : outcome (IndexedPoint * Z) :=
  match node with
  | mkKDNode axis location leftNode rightNode =>
      let visit (child : option KDNode) (st : IndexedPoint * Z) :=
        match child with
        | Some n => KDNode_nearestNeighbor ar n queryPoint st
        | None => Undefined
        end in
      let query_le_location (_ : unit) : outcome bool :=
        q ← at_ queryPoint axis;
        c ← at_ (point location) axis;
        Ok (bool_decide (q ≤ c)) in
      if negb (bool_decide (length (point location) = length queryPoint))
      then Abort else
      distance ← squaredDistance ar (point location) queryPoint;
      let st :=
        if bool_decide (distance < st.2) then (location, distance) else st in
      go_left ← (if is_null leftNode then Ok false else query_le_location ()
                 : outcome bool);
      st ← (if (go_left : bool) then visit leftNode st
            else if negb (is_null rightNode) then visit rightNode st
            else Ok st : outcome (IndexedPoint * Z));
      q ← at_ queryPoint axis;
      c ← at_ (point location) axis;
      let hypersphereDist := num_sub ar q c in
      if bool_decide (num_mul ar hypersphereDist hypersphereDist ≤ st.2)
      then
        go_right ← (if is_null rightNode then Ok false else query_le_location ()
                    : outcome bool);
        if (go_right : bool) then visit rightNode st
        else if negb (is_null leftNode) then visit leftNode st
        else Ok st
      else Ok st
  end.

(** ** KDTree member functions (kdtree.h, lines 153-209) *)

(** What a call of a member function leaves behind: the object, the lines
    written to [cerr], and the value returned. *)
Record call (A : Type) : Type := mkCall {
  this_after : KDTree;
  cerr : list string;
  returned : A
}.
Arguments mkCall {A} _ _ _.
Arguments this_after {A} _.
Arguments cerr {A} _.
Arguments returned {A} _.

Section Tree.
Variable nth_element : nth_element_t.
Variable ar : arith.
Variable T_max : Z.

(** The statements of the [try] block throw on a failed allocation only,
    which is outside the model: the [catch] handler is not reached, and
    [success] is [true] whenever the call has a defined behaviour. *)
Definition KDTree_build (data : list (list Z)) : outcome (call bool) :=
  let dataCopy := imap (λ ii p, mkIndexedPoint (Z.of_nat ii) p) data in
  root ← KDNode_build nth_element dataCopy (-1);
  Ok (mkCall (mkKDTree (Some root)) [] true).

(** Nothing in [KDNode::nearestNeighbor] throws either. *)
Definition KDTree_nearestNeighbor (this : KDTree) (queryPoint : list Z)
    : outcome (call IndexedPoint) :=
  match _rootNode this with
  | None =>
      Ok (mkCall this ["No tree has been constructed"%string]
            IndexedPoint_default)
  | Some root =>
      let best := mkIndexedPoint (-1) (replicate (length queryPoint) 0) in
      let dist := T_max in
      '(best, _) ← KDNode_nearestNeighbor ar root queryPoint (best, dist);
      Ok (mkCall this [] best)
  end.
End Tree.

(** ** bruteForceClosest (query_kdtree.cpp, lines 156-182) *)

Section BruteForce.
Variable ar : arith.
Variable T_max : Z.

(** The state of the scan: [best], [bestIndex], [bestDist].  The inner loop
    is that of [squaredDistance], run over the indices of the query. *)
Definition bruteForce_step (query : list Z)
    (st : list Z * Z * Z) (dd : nat) (p : list Z) : outcome (list Z * Z * Z) :=
  dist ← sq_loop ar p query (seq 0 (length query)) 0;
  Ok (if bool_decide (dist < st.2) then (p, Z.of_nat dd, dist) else st).

Fixpoint bruteForce_loop (query : list Z) (dd : nat) (data : list (list Z))
    (st : list Z * Z * Z) : outcome (list Z * Z * Z) :=
  match data with
  | [] => Ok st
  | p :: data' =>
      st' ← bruteForce_step query st dd p;
      bruteForce_loop query (S dd) data' st'
  end.

Definition bruteForceClosest (data : list (list Z)) (query : list Z)
    : outcome Z :=
  st ← bruteForce_loop query 0 data ([], -1, T_max);
  Ok st.1.2.
End BruteForce.

(** ** Serialization and deserialization (kdtree.h, lines 211-351) *)

Definition line : Type := list Z.
Definition stream : Type := list line.

Definition NULLPTR_MARKER : Z := -1.

(** [getline(in, line)]: at the end of input the line read is empty. *)
Definition getline (i : stream) : line * stream :=
  match i with
  | [] => ([], [])
  | l :: rest => (l, rest)
  end.

(** [axis_stream >> val] fails on a line without a token and on a token
    outside the range of [int]. *)
Definition intFromStream (i : stream) : Z * stream :=
  let '(l, rest) := getline i in
  match l with
  | [] => (-1, rest)
  | val :: _ =>
      if bool_decide (INT_MIN ≤ val ≤ INT_MAX) then (val, rest) else (-1, rest)
  end.

(** [while (point_stream >> elem) push_back(elem)]: the values of a line up
    to the first token that is not read as a finite value. *)
Fixpoint read_values (T_max : Z) (l : line) : list Z :=
  match l with
  | [] => []
  | elem :: l' =>
      if finite_value T_max elem then elem :: read_values T_max l' else []
  end.

(** [out << node]: the lines appended to [out]. *)
Fixpoint KDNode_write (node : KDNode) : stream :=
  match node with
  | mkKDNode axis location leftNode rightNode =>
      [axis] :: [index location] :: point location ::
      match leftNode with
      | Some n => KDNode_write n
      | None => [[NULLPTR_MARKER]]
      end ++
      match rightNode with
      | Some n => KDNode_write n
      | None => [[NULLPTR_MARKER]]
      end
  end.

(** [out << tree] *)
Definition KDTree_write (tree : KDTree) : stream :=
  match _rootNode tree with
  | Some root => KDNode_write root
  | None => []
  end.

Section Read.
Variable T_max : Z.

(** A child read by the recursive call [rec] after its axis line. *)
Definition read_child (rec : stream → KDNode → option (stream * KDNode))
    (i : stream) : option (stream * option KDNode) :=
  let '(axis, i) := intFromStream i in
  if bool_decide (axis = -1)
  then Some (i, None)
  else '(i, n) ← rec i (KDNode_new_axis axis); Some (i, Some n).

(** The body of [in >> node], with [rec] for its recursive calls. *)
Definition read_step (rec : stream → KDNode → option (stream * KDNode))
    (i : stream) (node : KDNode) : option (stream * KDNode) :=
  let '(idx, i) := intFromStream i in
  let '(l, i) := getline i in
  let location :=
    mkIndexedPoint idx (point (_location node) ++ read_values T_max l) in
  '(i, leftNode) ← read_child rec i;
  '(i, rightNode) ← read_child rec i;
  Some (i, mkKDNode (_axis node) location leftNode rightNode).

(** [in >> node]; [fuel] bounds the recursion depth, and [KDTree_read_total]
    below shows that the fuel [KDTree_read] gives is always enough. *)
Fixpoint KDNode_read_fuel (fuel : nat)
    : stream → KDNode → option (stream * KDNode) :=
  match fuel with
  | O => λ _ _, None
  | S fuel' => read_step (KDNode_read_fuel fuel')
  end.

(** [in >> tree] *)
Definition KDTree_read_fuel (fuel : nat) (i : stream) (tree : KDTree)
    : option (stream * KDTree) :=
  let '(axis, i) := intFromStream i in
  if bool_decide (axis = -1)
  then Some (i, tree)
  else '(i, root) ← KDNode_read_fuel fuel i (KDNode_new_axis axis);
       Some (i, mkKDTree (Some root)).

Definition KDTree_read (i : stream) (tree : KDTree)
    : option (stream * KDTree) :=
  KDTree_read_fuel (length i) i tree.
End Read.

(** ** The contract of std::nth_element

    After [nth_element(first, nth, last, comp)] the range is a rearrangement
    of what it was, the element at [nth] is the one a full sort would put
    there, no element before [nth] is greater than it and no element from
    [nth] on is less than it.  The contract is stated for the comparisons
    [build] uses, on ranges where they are defined. *)

Record nth_element_ok (nth_element : nth_element_t) : Prop := {
  nth_element_perm : ∀ comp n range, nth_element comp n range ≡ₚ range;
  nth_element_nth : ∀ axis n range x,
    forallb (has_coord axis) range = true →
    nth_element (comp_of axis) n range !! n = Some x →
    Forall (λ y, comp_of axis x y = false)
           (take n (nth_element (comp_of axis) n range)) ∧
    Forall (λ y, comp_of axis y x = false)
           (drop n (nth_element (comp_of axis) n range))
}.

(** An admissible [nth_element]: a full (insertion) sort of the range. *)
Fixpoint sort_insert (comp : IndexedPoint → IndexedPoint → bool)
    (x : IndexedPoint) (l : list IndexedPoint) : list IndexedPoint :=
  match l with
  | [] => [x]
  | y :: l' => if comp x y then x :: l else y :: sort_insert comp x l'
  end.

Definition nth_element_sort : nth_element_t :=
  λ comp _ range, foldr (sort_insert comp) [] range.

(** ** Predicates on trees *)

(** The locations stored in a tree, in pre-order. *)
Fixpoint locations (node : KDNode) : list IndexedPoint :=
  match node with
  | mkKDNode _ location leftNode rightNode =>
      location ::
      match leftNode with Some n => locations n | None => [] end ++
      match rightNode with Some n => locations n | None => [] end
  end.

(** Every node is a leaf or has both children. *)
Fixpoint full (node : KDNode) : Prop :=
  match node with
  | mkKDNode _ _ None None => True
  | mkKDNode _ _ (Some l) (Some r) => full l ∧ full r
  | _ => False
  end.

(** Every node's axis is that of its parent plus one, modulo [D]. *)
Fixpoint axes_follow (D : Z) (parentAxis : Z) (node : KDNode) : Prop :=
  match node with
  | mkKDNode axis _ leftNode rightNode =>
      axis = (parentAxis + 1) `mod` D ∧
      match leftNode with Some n => axes_follow D axis n | None => True end ∧
      match rightNode with Some n => axes_follow D axis n | None => True end
  end.

(** With the root at depth [depth], every node has the axis of its depth
    modulo [D]. *)
Fixpoint axes_by_depth (D : Z) (depth : Z) (node : KDNode) : Prop :=
  match node with
  | mkKDNode axis _ leftNode rightNode =>
      axis = depth `mod` D ∧
      match leftNode with
      | Some n => axes_by_depth D (depth + 1) n
      | None => True
      end ∧
      match rightNode with
      | Some n => axes_by_depth D (depth + 1) n
      | None => True
      end
  end.

(** The coordinate of a point on an axis, where it has one. *)
Definition key (axis : Z) (p : IndexedPoint) : Z :=
  match at_ (point p) axis with
  | Ok x => x
  | _ => 0
  end.

Definition dimension_is (D : nat) (p : IndexedPoint) : Prop :=
  length (point p) = D.

(** Every location has [D] coordinates and every axis is below [D]. *)
Fixpoint well_dimensioned (D : nat) (node : KDNode) : Prop :=
  match node with
  | mkKDNode axis location leftNode rightNode =>
      length (point location) = D ∧ 0 ≤ axis < Z.of_nat D ∧
      match leftNode with Some n => well_dimensioned D n | None => True end ∧
      match rightNode with Some n => well_dimensioned D n | None => True end
  end.

(** The partition invariant: on the axis of a node, no point of its left
    subtree is greater than its location and no point of its right subtree
    is less. *)
Fixpoint partitioned (node : KDNode) : Prop :=
  match node with
  | mkKDNode axis location leftNode rightNode =>
      match leftNode with
      | Some n =>
          Forall (λ p, key axis p ≤ key axis location) (locations n) ∧
          partitioned n
      | None => True
      end ∧
      match rightNode with
      | Some n =>
          Forall (λ p, key axis location ≤ key axis p) (locations n) ∧
          partitioned n
      | None => True
      end
  end.

(** Every axis and every index of the tree is an [int], as in the code, and
    every coordinate is finite. *)
Fixpoint in_range (T_max : Z) (node : KDNode) : Prop :=
  match node with
  | mkKDNode axis location leftNode rightNode =>
      INT_MIN ≤ axis ≤ INT_MAX ∧ INT_MIN ≤ index location ≤ INT_MAX ∧
      finite_point T_max (point location) ∧
      match leftNode with Some n => in_range T_max n | None => True end ∧
      match rightNode with Some n => in_range T_max n | None => True end
  end.

(** The coordinates of the locations of a tree are finite. *)
Definition finite_locations (T_max : Z) (node : KDNode) : Prop :=
  Forall (λ p, finite_point T_max (point p)) (locations node).

(** No axis of the tree is the marker of an absent node. *)
Fixpoint no_marker (node : KDNode) : Prop :=
  match node with
  | mkKDNode axis _ leftNode rightNode =>
      axis ≠ NULLPTR_MARKER ∧
      match leftNode with Some n => no_marker n | None => True end ∧
      match rightNode with Some n => no_marker n | None => True end
  end.

Definition key_le (axis : Z) (i j : IndexedPoint) : Prop :=
  key axis i ≤ key axis j.

(** The squared difference of two coordinates, as the code computes it. *)
Definition sq_diff (ar : arith) (x y : Z) : Z :=
  num_mul ar (num_sub ar x y) (num_sub ar x y).

(** The sum [squaredDistance] computes, term by term from [dist], over the
    paired coordinates of two vectors. *)
Definition sq_sum (ar : arith) (dist : Z) (a b : list Z) : Z :=
  foldl (λ dist xy, num_add ar dist (sq_diff ar xy.1 xy.2)) dist (zip a b).

(** The squared distance [squaredDistance] computes for two vectors of one
    size. *)
Definition sqdist (ar : arith) (a b : list Z) : Z := sq_sum ar 0 a b.

(** What the theorems on the search assume of the arithmetic.  On IEEE 754
    numbers with rounding to nearest: [a - b] and [b - a] are opposite
    numbers, and have the same square; for finite coordinates every term of
    the sum is a non-negative number or the positive infinity, and adding
    such a term never makes a sum less than it was nor less than the term;
    and as rounding keeps the order, of three finite numbers in a row the
    two outer ones are at least as far apart, in computed squared difference,
    as the middle one is from either. *)
Record arith_ok (T_max : Z) (ar : arith) : Prop := {
  sq_diff_sym : ∀ x y, sq_diff ar x y = sq_diff ar y x;
  sq_diff_le_sum : ∀ a b i x y,
    finite_point T_max a → finite_point T_max b →
    a !! i = Some x → b !! i = Some y →
    sq_diff ar x y ≤ sqdist ar a b;
  sq_diff_mono : ∀ q c x,
    finite_value T_max q = true → finite_value T_max c = true →
    finite_value T_max x = true →
    (q ≤ c ∧ c ≤ x) ∨ (x ≤ c ∧ c ≤ q) →
    sq_diff ar q c ≤ sq_diff ar x q
}.

(** Exact arithmetic. *)
Definition arith_exact : arith := mkArith Z.sub Z.mul Z.add.

(** The arithmetic of [double] on whole numbers: the exact result rounded
    to 53 significant bits, ties to even, and to an infinity, coded [2 ^ 1024],
    from there on.  [round_to z e] rounds [z ≥ 0] to a multiple of [2 ^ e],
    and [round53 m] rounds [m ≥ 0] to 53 significant bits. *)
Definition round_to (z e : Z) : Z :=
  let u := 2 ^ e in
  let q := z `div` u in
  let r := z `mod` u in
  if bool_decide (2 * r < u) then q * u
  else if bool_decide (u < 2 * r) then (q + 1) * u
  else if Z.even q then q * u else (q + 1) * u.

Definition round53 (m : Z) : Z := round_to m (Z.max 0 (Z.log2 m - 52)).

Definition round_double (z : Z) : Z :=
  Z.sgn z * Z.min (round53 (Z.abs z)) (2 ^ 1024).

Definition arith_double : arith :=
  mkArith (λ a b, round_double (a - b)) (λ a b, round_double (a * b))
    (λ a b, round_double (a + b)).

(** [numeric_limits<double>::max()] *)
Definition DBL_MAX : Z := 2 ^ 1024 - 2 ^ 971.

(** [node] is built from [range] by the median case of [KDNode::build]:
    its location is the element at the median position of the rearranged
    range, its left child is built from the elements before that position
    and its right child from the elements from that position on. *)
Definition split_at_median (nth_element : nth_element_t)
    (range : list IndexedPoint) (node : KDNode) : Prop :=
  let median := (length range / 2)%nat in
  let range' := nth_element (comp_of (_axis node)) median range in
  ∃ leftNode rightNode,
    _leftNode node = Some leftNode ∧ _rightNode node = Some rightNode ∧
    range' !! median = Some (_location node) ∧
    KDNode_build nth_element (take median range') (_axis node) = Ok leftNode ∧
    KDNode_build nth_element (drop median range') (_axis node) = Ok rightNode.

(** ** Induction on trees *)

Definition on_child (P : KDNode → Prop) (child : option KDNode) : Prop :=
  match child with
  | Some n => P n
  | None => True
  end.

Fixpoint KDNode_ind (P : KDNode → Prop)
    (step : ∀ axis location leftNode rightNode,
        on_child P leftNode → on_child P rightNode →
        P (mkKDNode axis location leftNode rightNode))
    (node : KDNode) : P node :=
  match node with
  | mkKDNode axis location leftNode rightNode =>
      step axis location leftNode rightNode
        match leftNode as c return on_child P c with
        | Some n => KDNode_ind P step n
        | None => I
        end
        match rightNode as c return on_child P c with
        | Some n => KDNode_ind P step n
        | None => I
        end
  end.

(** What [out << node] writes for a child pointer. *)
Definition KDNode_write_child (child : option KDNode) : stream :=
  match child with
  | Some n => KDNode_write n
  | None => [[NULLPTR_MARKER]]
  end.

(** The depth of the recursion of [in >> node] on what was written for a
    tree. *)
Fixpoint height (node : KDNode) : nat :=
  match node with
  | mkKDNode _ _ leftNode rightNode =>
      S (match leftNode with Some n => height n | None => 0 end `max`
         match rightNode with Some n => height n | None => 0 end)
  end.

Definition child_height (child : option KDNode) : nat :=
  match child with
  | Some n => height n
  | None => 0
  end.

(** [rec] returns on every stream shorter than [bound], and leaves no more
    of the stream than it was given. *)
Definition returns_shorter (rec : stream → KDNode → option (stream * KDNode))
    (bound : nat) : Prop :=
  ∀ i node, (length i < bound)%nat →
    ∃ i' n, rec i node = Some (i', n) ∧ (length i' ≤ length i)%nat.

(** ** The state of a search *)

(** The recursive call of [nearestNeighbor] through a child pointer. *)
Definition visit (ar : arith) (queryPoint : list Z) (child : option KDNode)
    (st : IndexedPoint * Z) : outcome (IndexedPoint * Z) :=
  match child with
  | Some n => KDNode_nearestNeighbor ar n queryPoint st
  | None => Undefined
  end.

Definition dist_to (ar : arith) (queryPoint : list Z) (p : IndexedPoint) : Z :=
  sqdist ar (point p) queryPoint.

(** [st'] is what a search among the points [S] makes of the state [st],
    a pair of [best] and [bestSqrDistance]: the distance does not grow, it
    ends no greater than the computed distance of any point of [S], and
    either the state is unchanged or [best] is a point of [S] at that
    distance, nearer than before. *)
Definition searched (ar : arith) (queryPoint : list Z) (S : list IndexedPoint)
    (st st' : IndexedPoint * Z) : Prop :=
  st'.2 ≤ st.2 ∧
  (∀ p, p ∈ S → st'.2 ≤ dist_to ar queryPoint p) ∧
  (st' = st ∨
   (st'.1 ∈ S ∧ dist_to ar queryPoint st'.1 = st'.2 ∧ st'.2 < st.2)).

(** The same for the scan of [bruteForceClosest] over [data], whose first
    element has position [dd]; the state is [best], [bestIndex], [bestDist]. *)
Definition scanned (ar : arith) (query : list Z) (dd : nat)
    (data : list (list Z)) (st st' : list Z * Z * Z) : Prop :=
  st'.2 ≤ st.2 ∧
  (∀ p, p ∈ data → st'.2 ≤ sqdist ar p query) ∧
  (st' = st ∨
   (∃ i : nat, st'.1.2 = Z.of_nat (dd + i) ∧ data !! i = Some st'.1.1 ∧
               sqdist ar st'.1.1 query = st'.2 ∧ st'.2 < st.2)).

(** ** More predicates on trees *)

(** The locations of the leaves of a tree, from left to right. *)
Fixpoint leaves (node : KDNode) : list IndexedPoint :=
  match node with
  | mkKDNode _ location None None => [location]
  | mkKDNode _ _ leftNode rightNode =>
      match leftNode with Some n => leaves n | None => [] end ++
      match rightNode with Some n => leaves n | None => [] end
  end.

(** ** The drivers (build_kdtree.cpp, lines 20-99; query_kdtree.cpp,
    lines 31-154)

    A file is the stream of its lines, [None] when it cannot be opened.  The
    parsing loops [while (ss >> val)] take of a line the values up to the
    first token that is not read as one ([read_values]); their skipping of
    commas is left out, a line being the list of its tokens.  A run ends
    with an exit status and the file it wrote, [None] when it did not create
    one.  The command line is taken to have the right number of arguments,
    and the messages on the console are left out. *)

Definition file : Type := option stream.

Record run : Type := mkRun {
  status : Z;
  outfile : file
}.

(** The count of values read on the first line: 0 when there is no first
    line. *)
Definition first_line_dimension (T_max : Z) (f : file) : nat :=
  match f with
  | Some i => length (read_values T_max (getline i).1)
  | None => 0%nat
  end.

(** The lines parsed after the rewind, blank ones included: of each line the
    values that are read. *)
Definition parse_points (T_max : Z) (f : file) : list (list Z) :=
  match f with
  | Some i => read_values T_max <$> i
  | None => []
  end.

(** [readPointsFromFile]: [inr 1] stands for [exit(1)]. *)
Definition readPointsFromFile (T_max : Z) (f : file) : list (list Z) + Z :=
  if bool_decide (first_line_dimension T_max f < 1)%nat then inr 1
  else inl (parse_points T_max f).

(** The check of the coordinates in [main] of query_kdtree.cpp:
    [diff += fabs(best.point[ii] - originalPoints[bruteForceIndex][ii])].
    The sum itself goes to the console only, and its test [diff > 0] comes
    out on finite coordinates as it does in exact arithmetic: the difference
    of two finite numbers is zero only if they are equal, [fabs] is exact,
    and a sum of non-negative numbers is at least each of them.  So the loop
    is written with the exact sum. *)
Fixpoint diff_loop (best_point : list Z) (originalPoints : list (list Z))
    (bruteForceIndex : Z) (iis : list nat) (diff : Z) : outcome Z :=
  match iis with
  | [] => Ok diff
  | ii :: iis' =>
      x ← at_ best_point (Z.of_nat ii);
      p ← at_ originalPoints bruteForceIndex;
      y ← at_ p (Z.of_nat ii);
      diff_loop best_point originalPoints bruteForceIndex iis'
        (diff + Z.abs (x - y))
  end.

Section Drivers.
Variable nth_element : nth_element_t.
Variable ar : arith.
Variable T_max : Z.

(** [main] of build_kdtree.cpp. *)
Definition build_kdtree_main (dataFile : file) : outcome run :=
  if bool_decide (first_line_dimension T_max dataFile < 1)%nat
  then Ok (mkRun 1 None)
  else
    let data := parse_points T_max dataFile in
    c ← KDTree_build nth_element data;
    if negb (returned c) then Ok (mkRun 1 None)
    else Ok (mkRun 0 (Some (KDTree_write (this_after c)))).

(** The loop over the queries; [results] holds the lines written so far. *)
Fixpoint query_loop (tree : KDTree) (originalPoints : list (list Z))
    (queries : list (list Z)) (results : stream) : outcome run :=
  match queries with
  | [] => Ok (mkRun 0 (Some results))
  | query :: queries' =>
      c ← KDTree_nearestNeighbor ar T_max tree query;
      let best := returned c in
      bruteForceIndex ← bruteForceClosest ar T_max originalPoints query;
      if bool_decide (index best ≠ bruteForceIndex)
      then Ok (mkRun 1 (Some results))
      else
        diff ← diff_loop (point best) originalPoints bruteForceIndex
                 (seq 0 (length query)) 0;
        if bool_decide (0 < diff) then Ok (mkRun 1 (Some results))
        else query_loop (this_after c) originalPoints queries'
               (results ++ [[index best]])
  end.

(** The tree [main] of query_kdtree.cpp starts from: the one read from the
    file when it is open.  The fuel [KDTree_read] gives itself never runs
    out ([KDTree_read_total]). *)
Definition read_tree (treeFile : file) : outcome KDTree :=
  match treeFile with
  | Some i =>
      match KDTree_read T_max i KDTree_new with
      | Some (_, tree) => Ok tree
      | None => Undefined
      end
  | None => Ok KDTree_new
  end.

(** [main] of query_kdtree.cpp. *)
Definition query_kdtree_main (treeFile dataFile queryFile : file)
    : outcome run :=
  tree ← read_tree treeFile;
  match readPointsFromFile T_max dataFile with
  | inr status => Ok (mkRun status None)
  | inl originalPoints =>
      match readPointsFromFile T_max queryFile with
      | inr status => Ok (mkRun status None)
      | inl queries => query_loop tree originalPoints queries []
      end
  end.
End Drivers.

(** [i] is the position of the one point of [data] at the least computed
    distance from [query], and that distance is less than [T_max]. *)
Definition nearest_at (ar : arith) (T_max : Z) (data : list (list Z))
    (query : list Z) (i : nat) : Prop :=
  ∃ p, data !! i = Some p ∧ sqdist ar p query < T_max ∧
       ∀ j pj, data !! j = Some pj → j ≠ i →
               sqdist ar p query < sqdist ar pj query.

(** What a line of the results file of query_kdtree tells of its query: the
    index on it is the answer of the tree and of the brute-force search, and
    the point of the tree's answer has, up to the size of the query, the
    coordinates of the data point at that index. *)
Definition verified (ar : arith) (T_max : Z) (tree : KDTree)
    (data : list (list Z)) (query : list Z) (l : line) : Prop :=
  ∃ c p,
    KDTree_nearestNeighbor ar T_max tree query = Ok c ∧
    bruteForceClosest ar T_max data query = Ok (index (returned c)) ∧
    l = [index (returned c)] ∧
    (query ≠ [] →
     0 ≤ index (returned c) ∧ data !! Z.to_nat (index (returned c)) = Some p ∧
     take (length query) (point (returned c)) = take (length query) p).

(** ** Sample inputs *)

Definition sample_data : list (list Z) := [[0; 0]; [1; 1]; [2; 2]; [3; 3]].

(** The same dataset in tenths, for the query [[2.1, 2.1]]. *)
Definition scenario_data : list (list Z) :=
  [[0; 0]; [10; 10]; [20; 20]; [30; 30]].

(** Two points of different lengths. *)
Definition ragged_data : list (list Z) := [[1; 2]; [3]].

(** One point so far from the query [[0]] that the square of the distance
    is beyond [DBL_MAX]. *)
Definition far_data : list (list Z) := [[2 ^ 600]].

(** Two points, the first with an infinite coordinate. *)
Definition infinite_data : list (list Z) := [[2 ^ 1024; 5]; [3; 4]].

(** Two points whose squared distances from the origin differ by one, the
    first being the nearer, and are the same [double]. *)
Definition tie_data : list (list Z) := [[134217728; 16384]; [134217729; 0]].

(** A range of two elements. *)
Definition pair_range : list IndexedPoint :=
  [mkIndexedPoint 0 [0]; mkIndexedPoint 1 [1]].

(** The working copy [KDTree::build] makes of [sample_data]: a range of
    four elements. *)
Definition sample_range : list IndexedPoint :=
  imap (λ ii p, mkIndexedPoint (Z.of_nat ii) p) sample_data.

(** A tree that no build makes: one child only, and the greater coordinate
    on the left. *)
Definition lopsided_node : KDNode :=
  mkKDNode 0 (mkIndexedPoint 5 [0])
    (Some (mkKDNode 0 (mkIndexedPoint 6 [9]) None None)) None.

(** A tree whose root is farther from the query [[0]] than any [double]
    tells, with a child that is at the query. *)
Definition far_node : KDNode :=
  mkKDNode 0 (mkIndexedPoint 0 [2 ^ 600])
    (Some (mkKDNode 0 (mkIndexedPoint 1 [0]) None None)) None.

(** The tree file build_kdtree writes for [sample_data]. *)
Definition sample_tree_file : file :=
  match build_kdtree_main nth_element_sort DBL_MAX (Some sample_data) with
  | Ok r => outfile r
  | _ => None
  end.

(** * Proofs *)

(** ** Outcomes and vector reads *)

Lemma bind_Ok {A B} (m : outcome A) (f : A → outcome B) (b : B) :
  m ≫= f = Ok b ↔ ∃ a, m = Ok a ∧ f a = Ok b.
Proof.
  destruct m as [a| |]; simpl; split.
  - intros H; exists a; auto.
  - intros (a' & [= <-] & H); exact H.
  - discriminate.
  - intros (? & [=] & _).
  - discriminate.
  - intros (? & [=] & _).
Qed.

Lemma at_Ok {A} (v : list A) (i : Z) (x : A) :
  at_ v i = Ok x ↔ 0 ≤ i ∧ v !! Z.to_nat i = Some x.
Proof.
  unfold at_. case_bool_decide as Hi.
  - destruct (v !! Z.to_nat i) as [y|]; simpl; split.
    + intros [= ->]; auto.
    + intros [_ [= ->]]; reflexivity.
    + discriminate.
    + intros [_ [=]].
  - split; [discriminate | intros [? _]; lia].
Qed.

Lemma at_of_nat {A} (v : list A) (n : nat) :
  at_ v (Z.of_nat n) = from_option (v !! n).
Proof.
  unfold at_. rewrite bool_decide_eq_true_2 by lia. by rewrite Nat2Z.id.
Qed.

Lemma at_in_range {A} (v : list A) (i : Z) :
  0 ≤ i < Z.of_nat (length v) → ∃ x, at_ v i = Ok x.
Proof.
  intros Hi. destruct (lookup_lt_is_Some_2 v (Z.to_nat i)) as [x Hx]; [lia|].
  exists x. apply at_Ok. split; [lia | done].
Qed.

Lemma has_coord_true (axis : Z) (p : IndexedPoint) :
  has_coord axis p = true ↔ 0 ≤ axis < Z.of_nat (length (point p)).
Proof.
  unfold has_coord. split.
  - destruct (at_ (point p) axis) as [x| |] eqn:E; try discriminate.
    intros _. apply at_Ok in E as [? E]. apply lookup_lt_Some in E. lia.
  - intros H. by destruct (at_in_range (point p) axis H) as [x ->].
Qed.

Lemma at_key (axis : Z) (p : IndexedPoint) :
  has_coord axis p = true → at_ (point p) axis = Ok (key axis p).
Proof.
  unfold has_coord, key. by destruct (at_ (point p) axis).
Qed.

Lemma comp_of_key (axis : Z) (i j : IndexedPoint) :
  has_coord axis i = true → has_coord axis j = true →
  comp_of axis i j = bool_decide (key axis i < key axis j).
Proof.
  intros Hi Hj. unfold comp_of, IndexedPointCompare.
  by rewrite (at_key _ _ Hi), (at_key _ _ Hj).
Qed.

(** ** squaredDistance *)

Lemma sq_loop_cons ar (x y : Z) (a b : list Z) (iis : list nat) (dist : Z) :
  sq_loop ar (x :: a) (y :: b) (S <$> iis) dist = sq_loop ar a b iis dist.
Proof.
  revert dist. induction iis as [|ii iis IH]; intros dist; [done|].
  rewrite fmap_cons. cbn [sq_loop]. rewrite !at_of_nat.
  cbn [lookup list_lookup]. destruct (a !! ii) as [u|]; [|done]. simpl.
  destruct (b !! ii) as [v|]; [|done]. simpl. apply IH.
Qed.

Lemma sq_loop_sqdist ar (a b : list Z) (dist : Z) :
  length a = length b →
  sq_loop ar a b (seq 0 (length a)) dist = Ok (sq_sum ar dist a b).
Proof.
  revert b dist. induction a as [|x a IH]; intros [|y b] dist Hlen;
    try discriminate; [done|].
  cbn [length seq]. rewrite <- fmap_S_seq. cbn [sq_loop].
  rewrite !at_of_nat. simpl. rewrite sq_loop_cons, IH by (simpl in Hlen; lia).
  done.
Qed.

Lemma squaredDistance_sqdist ar (a b : list Z) :
  length a = length b → squaredDistance ar a b = Ok (sqdist ar a b).
Proof.
  intros Hlen. unfold squaredDistance. rewrite bool_decide_eq_true_2 by done.
  by rewrite sq_loop_sqdist.
Qed.

(** ** Exact arithmetic meets the laws *)

Lemma sq_sum_exact_ge (dist : Z) (a b : list Z) :
  dist ≤ sq_sum arith_exact dist a b.
Proof.
  unfold sq_sum. revert b dist.
  induction a as [|x a IH]; intros [|y b] dist; simpl; try lia.
  specialize (IH b (dist + (x - y) * (x - y))).
  pose proof (Z.square_nonneg (x - y)). unfold sq_diff in *. simpl in *. lia.
Qed.

Lemma sq_sum_exact_coord (dist : Z) (a b : list Z) (i : nat) (x y : Z) :
  0 ≤ dist → a !! i = Some x → b !! i = Some y →
  (x - y) * (x - y) ≤ sq_sum arith_exact dist a b.
Proof.
  revert b i dist.
  induction a as [|u a IH]; intros [|w b] [|i] dist Hdist; simpl;
    try discriminate.
  - intros [= ->] [= ->].
    pose proof (sq_sum_exact_ge (dist + (x - y) * (x - y)) a b) as H.
    unfold sq_sum, sq_diff in *. simpl in *. lia.
  - intros Ha Hb. pose proof (Z.square_nonneg (u - w)).
    pose proof (IH b i (dist + (u - w) * (u - w)) ltac:(lia) Ha Hb) as H'.
    unfold sq_sum, sq_diff in *. simpl in *. lia.
Qed.

Lemma arith_exact_ok (T_max : Z) : arith_ok T_max arith_exact.
Proof.
  split.
  - intros x y. unfold sq_diff. simpl. lia.
  - intros a b i x y _ _ Ha Hb. unfold sq_diff, sqdist. simpl.
    by apply (sq_sum_exact_coord 0 a b i).
  - intros q c x _ _ _ Hrow. unfold sq_diff. simpl. nia.
Qed.

(** ** The arithmetic of [double] on whole numbers meets the laws *)

Lemma round_to_cases (z e : Z) :
  0 ≤ e →
  let u := 2 ^ e in
  (round_to z e = z `div` u * u ∧ 2 * (z `mod` u) ≤ u) ∨
  (round_to z e = (z `div` u + 1) * u ∧ u ≤ 2 * (z `mod` u)).
Proof.
  intros He u. unfold round_to. fold u.
  repeat case_bool_decide; [left; split; [done|lia]|right; split; [done|lia]|].
  destruct (Z.even _); [left | right]; split; try done; lia.
Qed.

Lemma round_to_multiple (z e : Z) :
  0 ≤ e → z `mod` 2 ^ e = 0 → round_to z e = z.
Proof.
  intros He Hmod. unfold round_to. rewrite Hmod.
  assert (0 < 2 ^ e) as Hu by (apply Z.pow_pos_nonneg; lia).
  rewrite bool_decide_eq_true_2 by lia.
  pose proof (Z.div_mod z (2 ^ e) ltac:(lia)). lia.
Qed.

Lemma round_to_mono (z1 z2 e : Z) :
  0 ≤ e → z1 ≤ z2 → round_to z1 e ≤ round_to z2 e.
Proof.
  intros He Hle.
  assert (0 < 2 ^ e) as Hu by (apply Z.pow_pos_nonneg; lia).
  pose proof (Z.div_mod z1 (2 ^ e) ltac:(lia)) as H1.
  pose proof (Z.div_mod z2 (2 ^ e) ltac:(lia)) as H2.
  pose proof (Z.mod_pos_bound z1 (2 ^ e) Hu) as B1.
  pose proof (Z.mod_pos_bound z2 (2 ^ e) Hu) as B2.
  pose proof (Z.div_le_mono z1 z2 (2 ^ e) Hu Hle) as Hq.
  unfold round_to.
  set (u := 2 ^ e) in *. set (q1 := z1 `div` u) in *.
  set (q2 := z2 `div` u) in *. set (r1 := z1 `mod` u) in *.
  set (r2 := z2 `mod` u) in *.
  destruct (decide (q1 = q2)) as [Heq|Hneq].
  - rewrite Heq in *. assert (r1 ≤ r2) by nia.
    repeat case_bool_decide; try lia; try nia.
    all: destruct (Z.even q2); nia.
  - assert (q1 + 1 ≤ q2) by lia.
    assert ((q1 + 1) * u ≤ q2 * u) by nia.
    repeat case_bool_decide; try nia.
    all: repeat destruct (Z.even _); nia.
Qed.

Lemma round53_small (m : Z) : m < 2 ^ 53 → round53 m = m.
Proof.
  intros Hm. unfold round53.
  assert (Z.log2 m ≤ 52) as Hlog.
  { destruct (decide (0 < m)) as [Hpos|Hneg].
    - apply Z.log2_lt_pow2 in Hm; lia.
    - rewrite Z.log2_nonpos by lia. lia. }
  rewrite Z.max_l by lia. apply round_to_multiple; [lia|].
  by rewrite Z.pow_0_r, Z.mod_1_r.
Qed.

Lemma round53_bounds (m : Z) :
  0 < m → 2 ^ Z.log2 m ≤ round53 m ≤ 2 ^ (Z.log2 m + 1).
Proof.
  intros Hm. pose proof (Z.log2_spec m Hm) as [Hlo Hhi].
  pose proof (Z.log2_nonneg m) as Hk.
  rewrite <- Z.add_1_r in Hhi.
  set (k := Z.log2 m) in *.
  destruct (decide (k ≤ 52)) as [Hsmall|Hbig].
  { rewrite round53_small; [lia|].
    assert (2 ^ (k + 1) ≤ 2 ^ 53) by (apply Z.pow_le_mono_r; lia). lia. }
  unfold round53. fold k. rewrite Z.max_r by lia.
  set (e := k - 52).
  assert (0 < 2 ^ e) as Hu by (apply Z.pow_pos_nonneg; lia).
  assert (2 ^ k = 2 ^ 52 * 2 ^ e) as Hk2.
  { rewrite <- Z.pow_add_r by lia. f_equal. lia. }
  assert (2 ^ (k + 1) = 2 ^ 53 * 2 ^ e) as Hk3.
  { rewrite <- Z.pow_add_r by lia. f_equal. lia. }
  pose proof (Z.div_mod m (2 ^ e) ltac:(lia)) as Hdm.
  pose proof (Z.mod_pos_bound m (2 ^ e) Hu) as Hr.
  assert (2 ^ 52 ≤ m `div` 2 ^ e) as Hq1
    by (apply Z.div_le_lower_bound; lia).
  assert (m `div` 2 ^ e < 2 ^ 53) as Hq2
    by (apply Z.div_lt_upper_bound; lia).
  destruct (round_to_cases m e ltac:(lia)) as [[-> _]|[-> _]]; nia.
Qed.

Lemma round53_nonneg (m : Z) : 0 ≤ m → 0 ≤ round53 m.
Proof.
  intros Hm. destruct (decide (m = 0)) as [->|Hne]; [by vm_compute|].
  pose proof (round53_bounds m ltac:(lia)) as [H _].
  pose proof (Z.pow_pos_nonneg 2 (Z.log2 m) ltac:(lia) (Z.log2_nonneg m)). lia.
Qed.

Lemma round53_mono (m1 m2 : Z) : 0 ≤ m1 → m1 ≤ m2 → round53 m1 ≤ round53 m2.
Proof.
  intros H1 Hle. destruct (decide (m1 = 0)) as [->|Hne].
  { rewrite (round53_small 0) by lia. apply round53_nonneg. lia. }
  pose proof (Z.log2_le_mono m1 m2 Hle) as Hlog.
  destruct (decide (Z.log2 m1 = Z.log2 m2)) as [Heq|Hneq].
  - unfold round53. rewrite Heq. apply round_to_mono; lia.
  - pose proof (round53_bounds m1 ltac:(lia)) as [_ Hhi].
    pose proof (round53_bounds m2 ltac:(lia)) as [Hlo _].
    assert (2 ^ (Z.log2 m1 + 1) ≤ 2 ^ Z.log2 m2)
      by (apply Z.pow_le_mono_r; lia).
    lia.
Qed.

Lemma round53_idem (m : Z) : 0 ≤ m → round53 (round53 m) = round53 m.
Proof.
  intros Hm. destruct (decide (m < 2 ^ 53)) as [Hsmall|Hbig].
  { by rewrite !(round53_small m). }
  assert (0 < m) as Hpos by lia.
  pose proof (Z.log2_spec m Hpos) as [Hlo Hhi].
  rewrite <- Z.add_1_r in Hhi.
  assert (53 ≤ Z.log2 m) as Hk.
  { destruct (decide (53 ≤ Z.log2 m)); [done|].
    assert (2 ^ (Z.log2 m + 1) ≤ 2 ^ 53) by (apply Z.pow_le_mono_r; lia).
    lia. }
  pose proof (round53_bounds m Hpos) as [Hvlo Hvhi].
  set (k := Z.log2 m) in *. set (e := k - 52).
  assert (0 < 2 ^ e) as Hu by (apply Z.pow_pos_nonneg; lia).
  assert (0 < 2 ^ k) as Hpk by (apply Z.pow_pos_nonneg; lia).
  (* the rounded value is a multiple of [2 ^ e] *)
  assert (∃ q, round53 m = q * 2 ^ e) as [q Hq].
  { unfold round53. fold k. rewrite Z.max_r by lia. fold e.
    destruct (round_to_cases m e ltac:(lia)) as [[-> _]|[-> _]]; eauto. }
  set (v := round53 m) in *.
  destruct (decide (v = 2 ^ (k + 1))) as [Htop|Hlow].
  - (* carried to the next power of two *)
    unfold round53 at 1. fold v. rewrite Htop.
    rewrite Z.log2_pow2 by lia. rewrite Z.max_r by lia.
    apply round_to_multiple; [lia|].
    replace (k + 1) with (52 + (k + 1 - 52)) at 1 by lia.
    rewrite Z.pow_add_r by lia. apply Z.mod_mul. 
    pose proof (Z.pow_pos_nonneg 2 (k + 1 - 52) ltac:(lia) ltac:(lia)). lia.
  - assert (Z.log2 v = k) as Hlogv.
    { apply Z.log2_unique; [lia|]. rewrite Z.add_1_r in *. 
      split; [lia|]. rewrite <- Z.add_1_r in *. lia. }
    unfold round53 at 1. fold v. rewrite Hlogv, Z.max_r by lia. fold e.
    apply round_to_multiple; [lia|]. rewrite Hq. apply Z.mod_mul. lia.
Qed.

Lemma round_double_opp (z : Z) : round_double (- z) = - round_double z.
Proof. unfold round_double. rewrite Z.abs_opp, Z.sgn_opp. lia. Qed.

Lemma arith_double_sym (x y : Z) :
  sq_diff arith_double x y = sq_diff arith_double y x.
Proof.
  unfold sq_diff. simpl.
  replace (y - x) with (- (x - y)) by lia. rewrite round_double_opp.
  f_equal. lia.
Qed.

Lemma round_double_nonneg_eq (z : Z) :
  0 ≤ z → round_double z = Z.min (round53 z) (2 ^ 1024).
Proof.
  intros Hz. unfold round_double.
  rewrite Z.abs_eq by done.
  destruct (decide (z = 0)) as [->|Hne]; [by vm_compute|].
  rewrite Z.sgn_pos by lia. lia.
Qed.

Lemma round_double_nonneg (z : Z) : 0 ≤ z → 0 ≤ round_double z.
Proof.
  intros Hz. rewrite round_double_nonneg_eq by done.
  pose proof (round53_nonneg z Hz).
  assert (0 < 2 ^ 1024) by (by vm_compute). lia.
Qed.

Lemma round_double_mono (z1 z2 : Z) :
  z1 ≤ z2 → round_double z1 ≤ round_double z2.
Proof.
  intros Hle.
  assert (∀ a b, 0 ≤ a → a ≤ b → round_double a ≤ round_double b) as Hpos.
  { intros a b Ha Hab. rewrite !round_double_nonneg_eq by lia.
    pose proof (round53_mono a b Ha Hab). lia. }
  destruct (decide (0 ≤ z1)) as [H1|H1]; [by apply Hpos|].
  destruct (decide (0 ≤ z2)) as [H2|H2].
  - pose proof (round_double_nonneg z2 H2) as Hnn2.
    pose proof (round_double_nonneg (- z1) ltac:(lia)) as Hnn1.
    rewrite round_double_opp in Hnn1. lia.
  - pose proof (Hpos (- z2) (- z1) ltac:(lia) ltac:(lia)) as Hneg.
    rewrite !round_double_opp in Hneg. lia.
Qed.

Lemma round_double_idem (z : Z) :
  round_double (round_double z) = round_double z.
Proof.
  assert (∀ a, 0 ≤ a → round_double (round_double a) = round_double a)
    as Hpos.
  { intros a Ha. pose proof (round_double_nonneg a Ha) as Hnn.
    rewrite (round_double_nonneg_eq (round_double a)) by done.
    rewrite (round_double_nonneg_eq a) in * by done.
    destruct (Z.min_spec (round53 a) (2 ^ 1024)) as [[Hlt ->]|[Hge ->]].
    - rewrite round53_idem by done. lia.
    - by vm_compute. }
  destruct (decide (0 ≤ z)) as [Hz|Hz]; [by apply Hpos|].
  specialize (Hpos (- z) ltac:(lia)). rewrite !round_double_opp in Hpos. lia.
Qed.

(** What [squaredDistance] computes in this arithmetic is a [double] that
    is not negative, and no term added makes it smaller. *)
Lemma sq_diff_double_nonneg (x y : Z) :
  0 ≤ sq_diff arith_double x y ∧
  round_double (sq_diff arith_double x y) = sq_diff arith_double x y.
Proof.
  unfold sq_diff. simpl. split; [|apply round_double_idem].
  apply round_double_nonneg. apply Z.square_nonneg.
Qed.

Lemma sq_sum_cons ar (dist x y : Z) (a b : list Z) :
  sq_sum ar dist (x :: a) (y :: b)
    = sq_sum ar (num_add ar dist (sq_diff ar x y)) a b.
Proof. reflexivity. Qed.

Lemma sq_sum_double_ge (dist : Z) (a b : list Z) :
  0 ≤ dist → round_double dist = dist →
  dist ≤ sq_sum arith_double dist a b.
Proof.
  revert b dist.
  induction a as [|x a IH]; intros [|y b] dist Hd Hr;
    try (unfold sq_sum; simpl; lia).
  rewrite sq_sum_cons.
  destruct (sq_diff_double_nonneg x y) as [Ht _].
  set (t := sq_diff arith_double x y) in *.
  change (num_add arith_double dist t) with (round_double (dist + t)).
  assert (dist ≤ round_double (dist + t)) as Hstep.
  { rewrite <- Hr at 1. apply round_double_mono. lia. }
  etrans; [exact Hstep|]. apply IH; [lia | apply round_double_idem].
Qed.

Lemma sq_sum_double_coord (dist : Z) (a b : list Z) (i : nat) (x y : Z) :
  0 ≤ dist → round_double dist = dist →
  a !! i = Some x → b !! i = Some y →
  sq_diff arith_double x y ≤ sq_sum arith_double dist a b.
Proof.
  revert b i dist.
  induction a as [|u a IH]; intros [|w b] [|i] dist Hd Hr Ha Hb;
    try discriminate; rewrite sq_sum_cons.
  - injection Ha as ->. injection Hb as ->.
    destruct (sq_diff_double_nonneg x y) as [Ht Htr].
    set (t := sq_diff arith_double x y) in *.
    change (num_add arith_double dist t) with (round_double (dist + t)).
    assert (t ≤ round_double (dist + t)) as Hstep.
    { rewrite <- Htr at 1. apply round_double_mono. lia. }
    etrans; [exact Hstep|].
    apply (sq_sum_double_ge (round_double (dist + t)) a b);
      [lia | apply round_double_idem].
  - destruct (sq_diff_double_nonneg u w) as [Ht _].
    set (t := sq_diff arith_double u w) in *.
    change (num_add arith_double dist t) with (round_double (dist + t)).
    apply (IH b i (round_double (dist + t))); try done.
    + pose proof (round_double_nonneg (dist + t) ltac:(lia)). lia.
    + apply round_double_idem.
Qed.

Lemma arith_double_ok (T_max : Z) : arith_ok T_max arith_double.
Proof.
  split.
  - exact arith_double_sym.
  - intros a b i x y _ _ Ha Hb.
    by apply (sq_sum_double_coord 0 a b i); [lia | by vm_compute | |].
  - intros q c x _ _ _ Hrow. unfold sq_diff. simpl.
    apply round_double_mono.
    assert (∀ d1 d2, 0 ≤ d1 → d1 ≤ d2 →
              round_double d1 * round_double d1
                ≤ round_double d2 * round_double d2) as Hsq.
    { intros d1 d2 H1 H2.
      pose proof (round_double_nonneg d1 H1).
      pose proof (round_double_mono d1 d2 H2). nia. }
    destruct Hrow as [[H1 H2]|[H1 H2]].
    + replace (q - c) with (- (c - q)) by lia. rewrite round_double_opp.
      pose proof (Hsq (c - q) (x - q) ltac:(lia) ltac:(lia)). lia.
    + replace (x - q) with (- (q - x)) by lia. rewrite round_double_opp.
      pose proof (Hsq (q - c) (q - x) ltac:(lia) ltac:(lia)). lia.
Qed.

(** ** [nth_element_sort] meets the contract *)

Lemma sort_insert_perm comp (x : IndexedPoint) (l : list IndexedPoint) :
  sort_insert comp x l ≡ₚ x :: l.
Proof.
  induction l as [|y l IH]; simpl; [done|].
  destruct (comp x y); [done|]. rewrite IH. apply Permutation_swap.
Qed.

Lemma nth_element_sort_perm comp (n : nat) (range : list IndexedPoint) :
  nth_element_sort comp n range ≡ₚ range.
Proof.
  unfold nth_element_sort. induction range as [|x l IH]; simpl; [done|].
  by rewrite sort_insert_perm, IH.
Qed.

Lemma sort_insert_sorted (axis : Z) (x : IndexedPoint) (l : list IndexedPoint) :
  has_coord axis x = true →
  Forall (λ p, has_coord axis p = true) l →
  StronglySorted (key_le axis) l →
  StronglySorted (key_le axis) (sort_insert (comp_of axis) x l).
Proof.
  intros Hx Hl Hs. induction Hs as [|y l Hs IH Hy]; simpl.
  - repeat constructor.
  - apply Forall_cons in Hl as [Hcy Hl].
    rewrite comp_of_key by done. case_bool_decide as Hlt.
    + constructor; [by constructor|]. constructor; [unfold key_le; lia|].
      eapply Forall_impl; [exact Hy|]. unfold key_le. simpl. intros; lia.
    + constructor; [by apply IH|].
      rewrite sort_insert_perm. constructor; [unfold key_le; lia | done].
Qed.

Lemma nth_element_sort_sorted (axis : Z) (n : nat) (range : list IndexedPoint) :
  Forall (λ p, has_coord axis p = true) range →
  StronglySorted (key_le axis) (nth_element_sort (comp_of axis) n range).
Proof.
  unfold nth_element_sort.
  induction 1 as [|x l Hx Hl IH]; simpl; [constructor|].
  apply sort_insert_sorted; [done| |done].
  by rewrite (nth_element_sort_perm (comp_of axis) n l : foldr _ _ _ ≡ₚ _).
Qed.

Lemma forallb_Forall_true {A} (f : A → bool) (l : list A) :
  forallb f l = true ↔ Forall (λ x, f x = true) l.
Proof.
  rewrite forallb_forall, Forall_forall. by setoid_rewrite list_elem_of_In.
Qed.

Lemma nth_element_sort_ok : nth_element_ok nth_element_sort.
Proof.
  split; [apply nth_element_sort_perm|].
  intros axis n range x Hc Hn. apply forallb_Forall_true in Hc.
  pose proof (nth_element_sort_sorted axis n range Hc) as Hs.
  assert (Hc' : Forall (λ p, has_coord axis p = true)
                  (nth_element_sort (comp_of axis) n range))
    by (by rewrite nth_element_sort_perm).
  set (l := nth_element_sort (comp_of axis) n range) in *.
  rewrite <- (take_drop_middle l n x Hn) in Hs, Hc'.
  rewrite (drop_S l x n Hn).
  apply Forall_app in Hc' as [Hct Hcd]. apply Forall_cons in Hcd as [Hcx Hcd].
  apply StronglySorted_app in Hs as (Hbefore & _ & Hafter).
  apply StronglySorted_cons in Hafter as [Hafter _].
  split.
  - apply Forall_forall. intros y Hy. rewrite comp_of_key; [|done|].
    + apply bool_decide_eq_false.
      assert (key_le axis y x) as Hle
        by (apply Hbefore; [done | apply list_elem_of_here]).
      unfold key_le in Hle. lia.
    + by eapply Forall_forall in Hct.
  - constructor.
    + rewrite comp_of_key by done. apply bool_decide_eq_false. lia.
    + apply Forall_forall. intros y Hy.
      rewrite comp_of_key; [|by eapply Forall_forall in Hcd|done].
      apply bool_decide_eq_false. eapply Forall_forall in Hafter; [|exact Hy].
      unfold key_le in Hafter. lia.
Qed.

(** ** KDNode::build: fuel *)

#[local] Arguments Nat.div : simpl never.

(** The axis of a node built from a range that starts with [start]. *)
Abbreviation axis_of axis start :=
  (size_t_of_int (axis + 1) `mod` Z.of_nat (length (point start))).

Lemma axis_of_bound (axis : Z) (start : IndexedPoint) :
  length (point start) ≠ 0%nat →
  0 ≤ axis_of axis start < Z.of_nat (length (point start)).
Proof. intros Hsize. apply Z.mod_pos_bound. lia. Qed.

Section BuildFacts.
Variable nth_element : nth_element_t.
Hypothesis nth_element_rearranges :
  ∀ comp n range, nth_element comp n range ≡ₚ range.

Lemma build_child_mono rec rec' present sub axis r :
  (∀ sub axis r, rec sub axis = Some r → rec' sub axis = Some r) →
  build_child rec present sub axis = Some r →
  build_child rec' present sub axis = Some r.
Proof.
  intros Hrec. unfold build_child. destruct present; [|done].
  destruct (rec sub axis) as [x|] eqn:E; [|done].
  by rewrite (Hrec _ _ _ E).
Qed.

Lemma build_step_mono rec rec' range axis r :
  (∀ sub axis r, rec sub axis = Some r → rec' sub axis = Some r) →
  build_step nth_element rec range axis = Some r →
  build_step nth_element rec' range axis = Some r.
Proof.
  intros Hrec. unfold build_step. destruct range as [|start rest]; [done|].
  cbv zeta.
  destruct (bool_decide (length (point start) = 0%nat)); [auto|].
  destruct (bool_decide (length (start :: rest) < 2)%nat); [auto|].
  destruct (negb _); [auto|].
  destruct (_ !! _) as [location|]; [|auto].
  intros H.
  apply bind_Some in H as (l & Hl & H). apply bind_Some in H as (r' & Hr & H).
  rewrite (build_child_mono _ _ _ _ _ _ Hrec Hl). cbn [mbind option_bind].
  rewrite (build_child_mono _ _ _ _ _ _ Hrec Hr). exact H.
Qed.

Lemma build_fuel_mono fuel fuel' range axis r :
  (fuel ≤ fuel')%nat →
  build_fuel nth_element fuel range axis = Some r →
  build_fuel nth_element fuel' range axis = Some r.
Proof.
  revert fuel' range axis r.
  induction fuel as [|fuel IH]; intros [|fuel'] range axis r Hle;
    try done; try lia.
  cbn [build_fuel]. apply build_step_mono. intros sub a x. apply IH. lia.
Qed.

Lemma median_bounds (n : nat) : (2 ≤ n → 0 < n / 2 < n)%nat.
Proof.
  intros Hn. split.
  - apply Nat.div_str_pos. lia.
  - apply Nat.div_lt; lia.
Qed.

(** The recursion ends: the fuel [KDNode_build] starts with is enough. *)
Lemma build_fuel_total fuel range axis :
  (length range < fuel)%nat → is_Some (build_fuel nth_element fuel range axis).
Proof.
  revert range axis.
  induction fuel as [|fuel IH]; intros range axis Hlen; [lia|].
  cbn [build_fuel]. unfold build_step.
  destruct range as [|start rest]; [done|]. cbv zeta.
  destruct (bool_decide (length (point start) = 0%nat)); [done|].
  destruct (bool_decide (length (start :: rest) < 2)%nat) eqn:Hlt; [done|].
  apply bool_decide_eq_false in Hlt.
  destruct (negb _); [done|].
  destruct (_ !! _) as [location|]; [|done].
  pose proof (median_bounds (length (start :: rest))) as Hm.
  set (m := (length (start :: rest) / 2)%nat) in *.
  set (range' := nth_element _ m _).
  assert (length range' = length (start :: rest)) as Hlen'
    by (by unfold range'; rewrite nth_element_rearranges).
  unfold build_child. clearbody m range'. cbn [length] in *.
  destruct (IH (take m range') (axis_of axis start)) as [l ->];
    [rewrite length_take; lia|].
  destruct (IH (drop m range') (axis_of axis start)) as [r ->];
    [rewrite length_drop; lia|].
  by repeat case_bool_decide.
Qed.

Lemma build_fuel_KDNode_build fuel range axis node :
  build_fuel nth_element fuel range axis = Some (Ok node) →
  KDNode_build nth_element range axis = Ok node.
Proof.
  intros H. unfold KDNode_build.
  destruct (build_fuel_total (S (length range)) range axis) as [r Hr]; [lia|].
  rewrite Hr. destruct (Nat.le_ge_cases fuel (S (length range))) as [Hle|Hle].
  - apply (build_fuel_mono _ _ _ _ _ Hle) in H. congruence.
  - apply (build_fuel_mono _ _ _ _ _ Hle) in Hr. congruence.
Qed.

Lemma KDNode_build_build_fuel range axis r :
  KDNode_build nth_element range axis = r →
  build_fuel nth_element (S (length range)) range axis = Some r.
Proof.
  unfold KDNode_build.
  destruct (build_fuel_total (S (length range)) range axis) as [r' Hr]; [lia|].
  rewrite Hr. by intros ->.
Qed.

(** ** KDNode::build: case analysis and induction *)

(** A successful build of a range is either the leaf case, for a range of
    one element, or the median case, where both recursive calls are
    made. *)
Lemma KDNode_build_ind (P : list IndexedPoint → Z → KDNode → Prop) :
  (∀ start axis,
      length (point start) ≠ 0%nat →
      P [start] axis (mkKDNode (axis_of axis start) start None None)) →
  (∀ start rest axis location leftNode rightNode,
      let range := start :: rest in
      let axis_ := axis_of axis start in
      let median := (length range / 2)%nat in
      let range' := nth_element (comp_of axis_) median range in
      length (point start) ≠ 0%nat →
      (2 ≤ length range)%nat →
      forallb (has_coord axis_) range = true →
      range' !! median = Some location →
      KDNode_build nth_element (take median range') axis_ = Ok leftNode →
      P (take median range') axis_ leftNode →
      KDNode_build nth_element (drop median range') axis_ = Ok rightNode →
      P (drop median range') axis_ rightNode →
      P range axis (mkKDNode axis_ location (Some leftNode) (Some rightNode))) →
  ∀ range axis node,
    KDNode_build nth_element range axis = Ok node → P range axis node.
Proof.
  intros Hleaf Hnode range axis node H.
  apply KDNode_build_build_fuel in H.
  remember (S (length range)) as fuel eqn:Hfuel. clear Hfuel.
  revert range axis node H.
  induction fuel as [|fuel IH]; intros range axis node H; [done|].
  cbn [build_fuel] in H. unfold build_step in H.
  destruct range as [|start rest]; [done|]. cbv zeta in H.
  destruct (bool_decide (length (point start) = 0%nat)) eqn:Hsize; [done|].
  apply bool_decide_eq_false in Hsize.
  destruct (bool_decide (length (start :: rest) < 2)%nat) eqn:Hlen.
  { apply bool_decide_eq_true in Hlen. injection H as <-.
    destruct rest; [|simpl in Hlen; lia]. by apply Hleaf. }
  apply bool_decide_eq_false in Hlen.
  destruct (forallb _ _) eqn:Hc; [|done]. cbn [negb] in H.
  destruct (_ !! _) as [location|] eqn:Hloc; [|done].
  pose proof (median_bounds (length (start :: rest))) as Hm.
  rewrite !bool_decide_eq_true_2 in H by lia.
  unfold build_child in H.
  apply bind_Some in H as (l & Hl & H).
  apply bind_Some in Hl as (l' & Hl' & [= <-]).
  apply bind_Some in H as (r & Hr & H).
  apply bind_Some in Hr as (r' & Hr' & [= <-]).
  destruct l' as [leftNode| |]; try done.
  destruct r' as [rightNode| |]; try done.
  injection H as <-.
  apply Hnode; try done; try lia; eauto using build_fuel_KDNode_build.
Qed.
End BuildFacts.

(** ** KDNode::build: what the built tree looks like *)

Section BuildProperties.
Variable nth_element : nth_element_t.
Hypothesis nth_element_contract : nth_element_ok nth_element.

Abbreviation KDNode_build := (KDNode_build nth_element).

Let rearranges := nth_element_perm nth_element nth_element_contract.

Lemma KDNode_build_full range axis node :
  KDNode_build range axis = Ok node → full node.
Proof.
  revert range axis node.
  apply (KDNode_build_ind nth_element rearranges (λ _ _ node, full node));
    simpl; auto.
Qed.

Lemma median_in_right (range' : list IndexedPoint) (median : nat) location :
  range' !! median = Some location → location ∈ drop median range'.
Proof.
  intros H. apply list_elem_of_lookup. exists 0%nat.
  by rewrite lookup_drop, Nat.add_0_r.
Qed.

(** The locations of the built tree are the elements of the range. *)
Lemma KDNode_build_locations range axis node :
  KDNode_build range axis = Ok node → ∀ x, x ∈ locations node ↔ x ∈ range.
Proof.
  revert range axis node.
  apply (KDNode_build_ind nth_element rearranges
           (λ range _ node, ∀ x, x ∈ locations node ↔ x ∈ range)).
  - intros start axis _ x. simpl. reflexivity.
  - intros start rest axis location leftNode rightNode range axis_ median range'
      _ _ _ Hloc _ IHl _ IHr x.
    cbn [locations]. rewrite elem_of_cons, elem_of_app, IHl, IHr.
    assert (x ∈ range ↔ x ∈ take median range' ∨ x ∈ drop median range') as ->.
    { rewrite <- elem_of_app, take_drop. unfold range'. by rewrite rearranges. }
    pose proof (median_in_right _ _ _ Hloc) as Hin.
    split; [intros [->|[?|?]] | intros [?|?]]; auto.
Qed.

Lemma KDNode_build_no_marker range axis node :
  KDNode_build range axis = Ok node → no_marker node.
Proof.
  revert range axis node.
  apply (KDNode_build_ind nth_element rearranges (λ _ _ node, no_marker node)).
  - intros start axis Hsize. simpl. unfold NULLPTR_MARKER.
    pose proof (axis_of_bound axis start Hsize). lia.
  - intros start rest axis location leftNode rightNode range axis_ median range'
      Hsize _ _ _ _ IHl _ IHr.
    simpl. unfold NULLPTR_MARKER. split_and!; try done.
    pose proof (axis_of_bound axis start Hsize). unfold axis_. lia.
Qed.

Lemma sub_ranges_dimension D median comp range :
  Forall (dimension_is D) range →
  Forall (dimension_is D) (take median (nth_element comp median range)) ∧
  Forall (dimension_is D) (drop median (nth_element comp median range)).
Proof.
  intros H. rewrite <- (rearranges comp median range) in H.
  split; [by apply Forall_take | by apply Forall_drop].
Qed.

Lemma size_t_of_int_small (z : Z) : 0 ≤ z < 2 ^ 64 → size_t_of_int z = z.
Proof. intros Hz. unfold size_t_of_int. by rewrite Z.mod_small. Qed.

Lemma KDNode_build_axes_follow D range axis node :
  Z.of_nat D < 2 ^ 64 → -1 ≤ axis < 2 ^ 64 - 1 →
  Forall (dimension_is D) range →
  KDNode_build range axis = Ok node → axes_follow (Z.of_nat D) axis node.
Proof.
  intros HD Haxis Hdim H. revert range axis node H Haxis Hdim.
  apply (KDNode_build_ind nth_element rearranges
           (λ range axis node, -1 ≤ axis < 2 ^ 64 - 1 →
                               Forall (dimension_is D) range →
                               axes_follow (Z.of_nat D) axis node)).
  - intros start axis _ Haxis Hdim. apply Forall_cons in Hdim as [-> _].
    rewrite size_t_of_int_small by lia. by simpl.
  - intros start rest axis location leftNode rightNode range axis_ median range'
      Hsize _ _ _ _ IHl _ IHr Haxis Hdim.
    destruct (sub_ranges_dimension D median (comp_of axis_) range Hdim)
      as [Hl Hr].
    apply Forall_cons in Hdim as [Hstart _]. unfold dimension_is in Hstart.
    pose proof (axis_of_bound axis start Hsize) as Hmod.
    fold axis_ in Hmod. rewrite Hstart in Hmod.
    assert (axis_ = (axis + 1) `mod` Z.of_nat D) as Haxis_.
    { unfold axis_. by rewrite Hstart, size_t_of_int_small by lia. }
    specialize (IHl ltac:(lia) Hl). specialize (IHr ltac:(lia) Hr).
    simpl. auto.
Qed.

Lemma KDNode_build_well_dimensioned D range axis node :
  Forall (dimension_is D) range →
  KDNode_build range axis = Ok node → well_dimensioned D node.
Proof.
  intros Hdim H. revert range axis node H Hdim.
  apply (KDNode_build_ind nth_element rearranges
           (λ range axis node, Forall (dimension_is D) range →
                               well_dimensioned D node)).
  - intros start axis Hsize Hdim. apply Forall_cons in Hdim as [Hstart _].
    unfold dimension_is in Hstart. subst D. simpl. split_and!; try done.
    all: pose proof (axis_of_bound axis start Hsize); lia.
  - intros start rest axis location leftNode rightNode range axis_ median range'
      Hsize _ _ Hloc _ IHl _ IHr Hdim.
    destruct (sub_ranges_dimension D median (comp_of axis_) range Hdim)
      as [Hl Hr].
    assert (dimension_is D location) as Hlocdim.
    { eapply Forall_forall; [exact Hr|]. by apply median_in_right. }
    apply Forall_cons in Hdim as [Hstart _]. unfold dimension_is in Hstart.
    pose proof (axis_of_bound axis start Hsize) as Hmod.
    fold axis_ in Hmod. rewrite Hstart in Hmod.
    simpl. split_and!; auto; lia.
Qed.

Lemma KDNode_build_partitioned range axis node :
  KDNode_build range axis = Ok node → partitioned node.
Proof.
  revert range axis node.
  apply (KDNode_build_ind nth_element rearranges
           (λ _ _ node, partitioned node)); [by simpl|].
  intros start rest axis location leftNode rightNode range axis_ median range'
    _ _ Hc Hloc Hl IHl Hr IHr.
  destruct (nth_element_nth nth_element nth_element_contract
              axis_ median range location Hc Hloc) as [Hbefore Hafter].
  fold range' in Hbefore, Hafter.
  assert (Forall (λ p, has_coord axis_ p = true) range') as Hc'.
  { unfold range'. rewrite rearranges. by apply forallb_Forall_true. }
  assert (has_coord axis_ location = true) as Hcloc.
  { eapply Forall_forall in Hc'; [exact Hc'|].
    eapply list_elem_of_lookup_2, Hloc. }
  cbn [partitioned]. split_and!; try done.
  - apply Forall_forall. intros p Hp.
    apply (KDNode_build_locations _ _ _ Hl) in Hp.
    assert (has_coord axis_ p = true) as Hcp.
    { eapply Forall_forall in Hc'; [exact Hc'|]. by eapply subseteq_take. }
    eapply Forall_forall in Hbefore; [|exact Hp].
    rewrite comp_of_key in Hbefore by done.
    apply bool_decide_eq_false in Hbefore. lia.
  - apply Forall_forall. intros p Hp.
    apply (KDNode_build_locations _ _ _ Hr) in Hp.
    assert (has_coord axis_ p = true) as Hcp.
    { eapply Forall_forall in Hc'; [exact Hc'|]. by eapply subseteq_drop. }
    eapply Forall_forall in Hafter; [|exact Hp].
    rewrite comp_of_key in Hafter by done.
    apply bool_decide_eq_false in Hafter. lia.
Qed.
End BuildProperties.

(** ** KDNode::build and KDTree::build on well-formed input *)

Section BuildDefined.
Variable nth_element : nth_element_t.
Hypothesis nth_element_contract : nth_element_ok nth_element.

Let rearranges := nth_element_perm nth_element nth_element_contract.

Lemma has_coord_dimension D axis range :
  0 ≤ axis < Z.of_nat D →
  Forall (dimension_is D) range → forallb (has_coord axis) range = true.
Proof.
  intros Haxis Hdim. apply forallb_Forall_true.
  eapply Forall_impl; [exact Hdim|]. intros p Hp. apply has_coord_true.
  unfold dimension_is in Hp. lia.
Qed.

Lemma build_fuel_defined D fuel range axis :
  (length range < fuel)%nat → range ≠ [] → D ≠ 0%nat →
  Forall (dimension_is D) range →
  ∃ node, build_fuel nth_element fuel range axis = Some (Ok node).
Proof.
  intros Hfuel Hne HD. revert range axis Hfuel Hne.
  induction fuel as [|fuel IH]; intros range axis Hfuel Hne Hdim; [lia|].
  cbn [build_fuel]. unfold build_step.
  destruct range as [|start rest]; [done|]. cbv zeta.
  pose proof Hdim as Hdim0. apply Forall_cons in Hdim0 as [Hstart _].
  unfold dimension_is in Hstart. rewrite Hstart.
  rewrite bool_decide_eq_false_2 by done.
  case_bool_decide as Hlen; [eauto|].
  pose proof (Z.mod_pos_bound (size_t_of_int (axis + 1)) (Z.of_nat D)) as Hmod.
  set (axis_ := size_t_of_int (axis + 1) `mod` Z.of_nat D) in *.
  rewrite (has_coord_dimension D) by (done || lia). cbn [negb].
  pose proof (median_bounds (length (start :: rest))) as Hm.
  set (m := (length (start :: rest) / 2)%nat) in *.
  destruct (sub_ranges_dimension nth_element nth_element_contract
              D m (comp_of axis_) (start :: rest) Hdim) as [Hl Hr].
  set (range' := nth_element (comp_of axis_) m (start :: rest)) in *.
  assert (length range' = length (start :: rest)) as Hlen'
    by (by unfold range'; rewrite rearranges).
  destruct (lookup_lt_is_Some_2 range' m) as [location ->]; [lia|].
  rewrite !bool_decide_eq_true_2 by lia. unfold build_child.
  clearbody m range'. cbn [length] in *.
  destruct (IH (take m range') axis_) as [leftNode ->];
    [rewrite length_take; lia| |done|].
  { intros E. apply (f_equal length) in E.
    rewrite length_take in E. simpl in E. lia. }
  destruct (IH (drop m range') axis_) as [rightNode ->];
    [rewrite length_drop; lia| |done|].
  { intros E. apply (f_equal length) in E.
    rewrite length_drop in E. simpl in E. lia. }
  simpl. eauto.
Qed.

Lemma KDNode_build_defined D range axis :
  range ≠ [] → D ≠ 0%nat → Forall (dimension_is D) range →
  ∃ node, KDNode_build nth_element range axis = Ok node.
Proof.
  intros Hne HD Hdim. unfold KDNode_build.
  destruct (build_fuel_defined D (S (length range)) range axis) as [node ->];
    eauto; lia.
Qed.

(** The working copy of [KDTree::build]. *)
Lemma dataCopy_lookup (data : list (list Z)) (x : IndexedPoint) :
  x ∈ imap (λ ii p, mkIndexedPoint (Z.of_nat ii) p) data ↔
  0 ≤ index x ∧ data !! Z.to_nat (index x) = Some (point x).
Proof.
  rewrite elem_of_lookup_imap. split.
  - intros (i & p & -> & Hi). simpl. rewrite Nat2Z.id. split; [lia | done].
  - intros [H0 Hx]. exists (Z.to_nat (index x)), (point x).
    split; [|done]. destruct x as [i p]. simpl in *. f_equal. lia.
Qed.

Lemma dataCopy_dimension D (data : list (list Z)) :
  Forall (λ p, length p = D) data →
  Forall (dimension_is D) (imap (λ ii p, mkIndexedPoint (Z.of_nat ii) p) data).
Proof.
  rewrite !Forall_forall. intros H x Hx.
  apply dataCopy_lookup in Hx as [_ Hx]. apply list_elem_of_lookup_2 in Hx.
  by apply H.
Qed.

Lemma KDTree_build_Ok (data : list (list Z)) (c : call bool) :
  KDTree_build nth_element data = Ok c ↔
  ∃ root,
    KDNode_build nth_element
      (imap (λ ii p, mkIndexedPoint (Z.of_nat ii) p) data) (-1) = Ok root ∧
    c = mkCall (mkKDTree (Some root)) [] true.
Proof.
  unfold KDTree_build. rewrite bind_Ok. split.
  - intros (root & H & [= <-]). eauto.
  - intros (root & H & ->). eauto.
Qed.

Lemma KDTree_build_defined D (data : list (list Z)) :
  data ≠ [] → D ≠ 0%nat → Forall (λ p, length p = D) data →
  ∃ root,
    KDTree_build nth_element data = Ok (mkCall (mkKDTree (Some root)) [] true).
Proof.
  intros Hne HD Hdim.
  destruct (KDNode_build_defined D
              (imap (λ ii p, mkIndexedPoint (Z.of_nat ii) p) data) (-1))
    as [root Hroot]; [by destruct data|done|by apply dataCopy_dimension|].
  exists root. apply KDTree_build_Ok. eauto.
Qed.

Lemma axes_follow_by_depth D parentAxis depth node :
  0 < D → (parentAxis + 1) `mod` D = depth `mod` D →
  axes_follow D parentAxis node → axes_by_depth D depth node.
Proof.
  intros HD. revert parentAxis depth.
  induction node as [axis location leftNode rightNode IHl IHr] using KDNode_ind.
  intros parentAxis depth Hmod (Haxis & Hl & Hr). cbn [axes_by_depth].
  assert ((axis + 1) `mod` D = (depth + 1) `mod` D) as Hnext.
  { rewrite Haxis, Hmod. by rewrite Z.add_mod_idemp_l by lia. }
  split_and!; [congruence| |].
  - destruct leftNode; [|done]. by eapply IHl.
  - destruct rightNode; [|done]. by eapply IHr.
Qed.
End BuildDefined.

(** * The build claims *)

(** A successful build of a range of at least two elements makes both
    recursive calls: the left one on the elements before the median
    position, the right one on the elements from the median position on. *)
Lemma KDNode_build_two (nth_element : nth_element_t) range axis node :
  nth_element_ok nth_element →
  (2 ≤ length range)%nat →
  KDNode_build nth_element range axis = Ok node →
  split_at_median nth_element range node.
Proof.
  intros Hok Hlen H. revert range axis node H Hlen.
  apply (KDNode_build_ind nth_element (nth_element_perm _ Hok)
           (λ range axis node, (2 ≤ length range)%nat →
                               split_at_median nth_element range node)).
  - intros start axis _ Hlen. simpl in Hlen. lia.
  - intros start rest axis location leftNode rightNode range axis_ median range'
      _ _ _ Hloc Hl _ Hr _ _. unfold split_at_median. simpl. eauto 10.
Qed.

(** C3: [KDTree::build] on an empty point sequence does not return a
    failure flag: [KDNode::build] reads [start->point] where [start] is the
    end of the empty working copy, and the call has no defined outcome. *)
Theorem KDTree_build_empty_undefined (nth_element : nth_element_t) :
  KDTree_build nth_element [] = Undefined.
Proof. reflexivity. Qed.

(** C4 as stated fails: on the two points [[1,2]] and [[3]], of different
    lengths, [KDTree::build] returns [true]. *)
Lemma KDTree_build_ragged_succeeds :
  length <$> ragged_data = [2%nat; 1%nat] ∧
  KDTree_build nth_element_sort ragged_data =
    Ok (mkCall
          (mkKDTree (Some
             (mkKDNode 0 (mkIndexedPoint 1 [3])
                (Some (mkKDNode 1 (mkIndexedPoint 0 [1; 2]) None None))
                (Some (mkKDNode 0 (mkIndexedPoint 1 [3]) None None)))))
          [] true).
Proof. split; reflexivity. Qed.

(** C4, amended: [KDTree::build] does not compare the lengths of the points.
    Whenever the call has a defined outcome it returns [true], and every
    location of the tree is a point of the input with all its coordinates,
    under its position in the input: no point is truncated or padded. *)
Theorem KDTree_build_keeps_points (nth_element : nth_element_t)
    (data : list (list Z)) (c : call bool) :
  nth_element_ok nth_element →
  KDTree_build nth_element data = Ok c →
  returned c = true ∧
  ∃ root, _rootNode (this_after c) = Some root ∧
    ∀ x, x ∈ locations root →
      0 ≤ index x ∧ data !! Z.to_nat (index x) = Some (point x).
Proof.
  intros Hok H. apply KDTree_build_Ok in H as (root & Hroot & ->).
  split; [done|]. exists root. split; [done|]. intros x Hx.
  apply (KDNode_build_locations _ Hok _ _ _ Hroot) in Hx.
  by apply dataCopy_lookup.
Qed.

Lemma KDTree_build_keeps_points_witness :
  nth_element_ok nth_element_sort ∧
  ∃ c, KDTree_build nth_element_sort ragged_data = Ok c ∧
    returned c = true ∧
    ∃ root, _rootNode (this_after c) = Some root ∧
      ∀ x, x ∈ locations root →
        0 ≤ index x ∧ ragged_data !! Z.to_nat (index x) = Some (point x).
Proof.
  split; [exact nth_element_sort_ok|].
  eexists. split; [reflexivity|].
  apply (KDTree_build_keeps_points nth_element_sort ragged_data);
    [exact nth_element_sort_ok | reflexivity].
Defined.

(** C6 as stated fails: for the range of the two points [[0]] and [[1]] the
    sub-range from the median position on is the median alone, and a right
    child is built for it. *)
Lemma KDNode_build_pair_right_child :
  drop (length pair_range / 2)%nat
       (nth_element_sort (comp_of 0) (length pair_range / 2)%nat pair_range)
    = [mkIndexedPoint 1 [1]] ∧
  KDNode_build nth_element_sort pair_range (-1) =
    Ok (mkKDNode 0 (mkIndexedPoint 1 [1])
          (Some (mkKDNode 0 (mkIndexedPoint 0 [0]) None None))
          (Some (mkKDNode 0 (mkIndexedPoint 1 [1]) None None))).
Proof. split; reflexivity. Qed.

(** C6, amended: during the build of a range of at least two elements the
    right child is always built, by the recursive call on the sub-range that
    starts at the median position, which is never empty; when that sub-range
    is the median alone, the right child is a leaf whose location is the
    median. *)
Theorem KDNode_build_right_child (nth_element : nth_element_t)
    (range : list IndexedPoint) (axis : Z) (node : KDNode) :
  nth_element_ok nth_element →
  (2 ≤ length range)%nat →
  KDNode_build nth_element range axis = Ok node →
  let median := (length range / 2)%nat in
  let range' := nth_element (comp_of (_axis node)) median range in
  ∃ rightNode,
    _rightNode node = Some rightNode ∧
    drop median range' ≠ [] ∧
    KDNode_build nth_element (drop median range') (_axis node) = Ok rightNode ∧
    (length (drop median range') = 1%nat →
     _location rightNode = _location node ∧
     _leftNode rightNode = None ∧ _rightNode rightNode = None).
Proof.
  intros Hok Hlen H median range'.
  destruct (KDNode_build_two nth_element range axis node Hok Hlen H)
    as (leftNode & rightNode & _ & Hright & Hloc & _ & Hr).
  fold median range' in Hloc, Hr.
  exists rightNode. pose proof (median_in_right _ _ _ Hloc) as Hin.
  split_and!; try done.
  - intros E. rewrite E in Hin. by apply elem_of_nil in Hin.
  - intros Hone. destruct (drop median range') as [|x [|? ?]] eqn:E; try done.
    apply list_elem_of_singleton in Hin as <-.
    unfold KDNode_build in Hr. simpl in Hr.
    case_bool_decide; [done|]. by injection Hr as <-.
Qed.

Lemma KDNode_build_right_child_witness :
  nth_element_ok nth_element_sort ∧ (2 ≤ length pair_range)%nat ∧
  ∃ node, KDNode_build nth_element_sort pair_range (-1) = Ok node ∧
    let median := (length pair_range / 2)%nat in
    let range' := nth_element_sort (comp_of (_axis node)) median pair_range in
    ∃ rightNode,
      _rightNode node = Some rightNode ∧
      drop median range' ≠ [] ∧
      KDNode_build nth_element_sort (drop median range') (_axis node)
        = Ok rightNode ∧
      (length (drop median range') = 1%nat →
       _location rightNode = _location node ∧
       _leftNode rightNode = None ∧ _rightNode rightNode = None).
Proof.
  split; [exact nth_element_sort_ok|]. split; [simpl; lia|].
  eexists. split; [reflexivity|].
  apply (KDNode_build_right_child nth_element_sort pair_range (-1));
    [exact nth_element_sort_ok | simpl; lia | reflexivity].
Defined.

(** C7: for every range of at least two elements, all of [D ≥ 1]
    coordinates, the build returns a node; the sub-range of its right
    recursive call starts with the median element, and the location of the
    node, index and coordinates, is again the location of a node of the
    right subtree. *)
Theorem KDNode_build_median_duplicated (nth_element : nth_element_t)
    (D : nat) (range : list IndexedPoint) (axis : Z) :
  nth_element_ok nth_element →
  D ≠ 0%nat → (2 ≤ length range)%nat → Forall (dimension_is D) range →
  ∃ node,
    KDNode_build nth_element range axis = Ok node ∧
    let median := (length range / 2)%nat in
    let range' := nth_element (comp_of (_axis node)) median range in
    ∃ rightNode,
      _rightNode node = Some rightNode ∧
      head (drop median range') = Some (_location node) ∧
      KDNode_build nth_element (drop median range') (_axis node)
        = Ok rightNode ∧
      _location node ∈ locations rightNode.
Proof.
  intros Hok HD Hlen Hdim.
  destruct (KDNode_build_defined nth_element Hok D range axis) as [node H];
    [intros ->; simpl in Hlen; lia | done | done |].
  exists node. split; [done|]. intros median range'.
  destruct (KDNode_build_two nth_element range axis node Hok Hlen H)
    as (leftNode & rightNode & _ & Hright & Hloc & _ & Hr).
  fold median range' in Hloc, Hr.
  exists rightNode. split_and!; try done.
  - by rewrite head_lookup, lookup_drop, Nat.add_0_r.
  - apply (KDNode_build_locations _ Hok _ _ _ Hr). by apply median_in_right.
Qed.

Lemma KDNode_build_median_duplicated_witness :
  nth_element_ok nth_element_sort ∧ 2%nat ≠ 0%nat ∧
  (2 ≤ length sample_range)%nat ∧ Forall (dimension_is 2) sample_range ∧
  ∃ node,
    KDNode_build nth_element_sort sample_range (-1) = Ok node ∧
    let median := (length sample_range / 2)%nat in
    let range' :=
      nth_element_sort (comp_of (_axis node)) median sample_range in
    ∃ rightNode,
      _rightNode node = Some rightNode ∧
      head (drop median range') = Some (_location node) ∧
      KDNode_build nth_element_sort (drop median range') (_axis node)
        = Ok rightNode ∧
      _location node ∈ locations rightNode.
Proof.
  assert (Forall (dimension_is 2) sample_range) as Hdim
    by (repeat constructor).
  split; [exact nth_element_sort_ok|]. split; [lia|].
  split; [simpl; lia|]. split; [exact Hdim|].
  apply (KDNode_build_median_duplicated nth_element_sort 2 sample_range (-1));
    [exact nth_element_sort_ok | lia | simpl; lia | exact Hdim].
Defined.

(** C8: in the tree built from points of [D] coordinates each, [D] an
    [int], the axis of every node is the axis of its parent plus one, modulo
    [D], the parent axis of the root being -1; so the axis of a node at depth
    [k] is [k mod D], and the axis of the root is 0. *)
Theorem KDTree_build_axes_cycle (nth_element : nth_element_t)
    (D : nat) (data : list (list Z)) (c : call bool) :
  nth_element_ok nth_element →
  Z.of_nat D < 2 ^ 31 →
  Forall (λ p, length p = D) data →
  KDTree_build nth_element data = Ok c →
  ∃ root, _rootNode (this_after c) = Some root ∧
    axes_follow (Z.of_nat D) (-1) root ∧
    axes_by_depth (Z.of_nat D) 0 root ∧
    _axis root = 0.
Proof.
  intros Hok Hint Hdim H. apply KDTree_build_Ok in H as (root & Hroot & ->).
  exists root. apply dataCopy_dimension in Hdim.
  pose proof (KDNode_build_axes_follow _ Hok D _ (-1) _
                ltac:(lia) ltac:(lia) Hdim Hroot) as Haxes.
  pose proof (KDNode_build_well_dimensioned _ Hok D _ _ _ Hdim Hroot) as Hwd.
  assert (0 < Z.of_nat D) as HD by (destruct root; simpl in Hwd; lia).
  split_and!; try done.
  - by apply (axes_follow_by_depth _ (-1)).
  - destruct root as [axis ? ? ?]. destruct Haxes as [-> _]. simpl.
    by rewrite Z.mod_0_l by lia.
Qed.

Lemma KDTree_build_axes_cycle_witness :
  nth_element_ok nth_element_sort ∧
  Z.of_nat 2 < 2 ^ 31 ∧
  Forall (λ p, length p = 2%nat) sample_data ∧
  ∃ c, KDTree_build nth_element_sort sample_data = Ok c ∧
    ∃ root, _rootNode (this_after c) = Some root ∧
      axes_follow 2 (-1) root ∧ axes_by_depth 2 0 root ∧ _axis root = 0.
Proof.
  split; [exact nth_element_sort_ok|].
  assert (Forall (λ p : list Z, length p = 2%nat) sample_data) as Hdim
    by (repeat constructor).
  split; [lia|]. split; [exact Hdim|].
  eexists. split; [reflexivity|].
  apply (KDTree_build_axes_cycle nth_element_sort 2 sample_data);
    [exact nth_element_sort_ok | lia | exact Hdim | reflexivity].
Defined.

(** C10: every node of a tree produced by a successful build is a leaf or
    has both children, and for an input of at least two points the root has
    both children. *)
Theorem KDTree_build_full (nth_element : nth_element_t)
    (data : list (list Z)) (c : call bool) :
  nth_element_ok nth_element →
  KDTree_build nth_element data = Ok c →
  ∃ root, _rootNode (this_after c) = Some root ∧
    full root ∧
    ((2 ≤ length data)%nat →
     ∃ leftNode rightNode,
       _leftNode root = Some leftNode ∧ _rightNode root = Some rightNode).
Proof.
  intros Hok H. apply KDTree_build_Ok in H as (root & Hroot & ->).
  exists root. split_and!; [done | by eapply KDNode_build_full |].
  intros Hlen.
  rewrite <- (length_imap (λ ii p, mkIndexedPoint (Z.of_nat ii) p)) in Hlen.
  destruct (KDNode_build_two nth_element _ _ _ Hok Hlen Hroot)
    as (leftNode & rightNode & Hl & Hr & _). eauto.
Qed.

Lemma KDTree_build_full_witness :
  nth_element_ok nth_element_sort ∧
  ∃ c, KDTree_build nth_element_sort sample_data = Ok c ∧
    ∃ root, _rootNode (this_after c) = Some root ∧
      full root ∧
      ((2 ≤ length sample_data)%nat →
       ∃ leftNode rightNode,
         _leftNode root = Some leftNode ∧ _rightNode root = Some rightNode).
Proof.
  split; [exact nth_element_sort_ok|].
  eexists. split; [reflexivity|].
  apply (KDTree_build_full nth_element_sort sample_data);
    [exact nth_element_sort_ok | reflexivity].
Defined.

(** ** KDNode::nearestNeighbor *)

Lemma KDNode_nearestNeighbor_unfold ar axis location leftNode rightNode
    queryPoint (st : IndexedPoint * Z) :
  KDNode_nearestNeighbor ar (mkKDNode axis location leftNode rightNode)
    queryPoint st =
    if negb (bool_decide (length (point location) = length queryPoint))
    then Abort else
    distance ← squaredDistance ar (point location) queryPoint;
    let st :=
      if bool_decide (distance < st.2) then (location, distance) else st in
    go_left ← (if is_null leftNode then Ok false
               else q ← at_ queryPoint axis; c ← at_ (point location) axis;
                    Ok (bool_decide (q ≤ c)));
    st ← (if (go_left : bool) then visit ar queryPoint leftNode st
          else if negb (is_null rightNode) then visit ar queryPoint rightNode st
          else Ok st);
    q ← at_ queryPoint axis;
    c ← at_ (point location) axis;
    if bool_decide (sq_diff ar q c ≤ st.2)
    then
      go_right ← (if is_null rightNode then Ok false
                  else q ← at_ queryPoint axis; c ← at_ (point location) axis;
                       Ok (bool_decide (q ≤ c)));
      if (go_right : bool) then visit ar queryPoint rightNode st
      else if negb (is_null leftNode) then visit ar queryPoint leftNode st
      else Ok st
    else Ok st.
Proof. reflexivity. Qed.

Lemma finite_point_lookup T_max (p : list Z) (i : nat) (x : Z) :
  finite_point T_max p → p !! i = Some x → finite_value T_max x = true.
Proof. intros Hp Hx. by eapply (Forall_lookup_1 _ _ _ _ Hp). Qed.

Section Search.
Variable ar : arith.
Variable queryPoint : list Z.

Abbreviation searched := (searched ar queryPoint).
Abbreviation dist_to := (dist_to ar queryPoint).

Lemma searched_refl S st :
  (∀ p, p ∈ S → st.2 ≤ dist_to p) → searched S st st.
Proof. intros H. split_and!; [lia | done | by left]. Qed.

Lemma searched_nil st : searched [] st st.
Proof. apply searched_refl. intros p Hp. by apply elem_of_nil in Hp. Qed.

Lemma searched_seq S1 S2 st st1 st2 :
  searched S1 st st1 → searched S2 st1 st2 → searched (S1 ++ S2) st st2.
Proof.
  intros (Hle1 & Hmin1 & Hbest1) (Hle2 & Hmin2 & Hbest2). split_and!.
  - lia.
  - intros p [Hp|Hp]%elem_of_app; [specialize (Hmin1 p Hp); lia | auto].
  - destruct Hbest2 as [->|(Hin & Hd & Hlt)].
    + destruct Hbest1 as [->|(Hin & Hd & Hlt)]; [by left|].
      right. rewrite elem_of_app. auto.
    + right. rewrite elem_of_app. split_and!; auto. lia.
Qed.

Lemma searched_equiv S S' st st' :
  (∀ p, p ∈ S' ↔ p ∈ S) → searched S st st' → searched S' st st'.
Proof.
  intros Heq (Hle & Hmin & Hbest). split_and!; [done| |].
  - intros p Hp. apply Hmin. by apply Heq.
  - destruct Hbest as [->|(Hin & Hd & Hlt)]; [by left|].
    right. by rewrite Heq.
Qed.

(** The first step of a visit: the location of the node against [best]. *)
Lemma searched_location location st :
  searched [location] st
    (if bool_decide (dist_to location < st.2)
     then (location, dist_to location) else st).
Proof.
  case_bool_decide as Hlt.
  - split_and!; simpl; [lia| |].
    + intros p ->%list_elem_of_singleton. lia.
    + right. split_and!; [apply list_elem_of_here | done | done].
  - apply searched_refl. intros p ->%list_elem_of_singleton. lia.
Qed.

Lemma well_dimensioned_locations D node :
  well_dimensioned D node → Forall (dimension_is D) (locations node).
Proof.
  induction node as [axis location leftNode rightNode IHl IHr] using KDNode_ind.
  intros (Hloc & _ & Hl & Hr). cbn [locations].
  constructor; [done|]. apply Forall_app. split.
  - destruct leftNode; [by apply IHl | constructor].
  - destruct rightNode; [by apply IHr | constructor].
Qed.

Variable T_max : Z.
Hypothesis arithmetic : arith_ok T_max ar.
Hypothesis query_finite : finite_point T_max queryPoint.

(** The hyperplane test: a point on the far side of the splitting plane is
    at no smaller a computed distance from the query than the plane is. *)
Lemma plane_distance D axis (p : IndexedPoint) (q c : Z) :
  dimension_is D p → length queryPoint = D →
  finite_point T_max (point p) → finite_value T_max c = true →
  at_ queryPoint axis = Ok q →
  (q ≤ c ∧ c ≤ key axis p) ∨ (c < q ∧ key axis p ≤ c) →
  sq_diff ar q c ≤ dist_to p.
Proof.
  intros Hp Hq Hfin Hc Hat Hside. apply at_Ok in Hat as [H0 Hat].
  pose proof (lookup_lt_Some _ _ _ Hat) as Hlt.
  assert (has_coord axis p = true) as Hcoord
    by (apply has_coord_true; unfold dimension_is in Hp; lia).
  pose proof (at_key _ _ Hcoord) as Hk. apply at_Ok in Hk as [_ Hk].
  pose proof (finite_point_lookup _ _ _ _ Hfin Hk) as Hx.
  pose proof (finite_point_lookup _ _ _ _ query_finite Hat) as Hqf.
  etrans; [apply (sq_diff_mono _ _ arithmetic q c (key axis p)); try done; lia|].
  by eapply (sq_diff_le_sum _ _ arithmetic).
Qed.

Lemma searched_far D axis (S : list IndexedPoint) (q c : Z) st :
  Forall (dimension_is D) S → length queryPoint = D →
  Forall (λ p, finite_point T_max (point p)) S →
  finite_value T_max c = true →
  at_ queryPoint axis = Ok q →
  ¬ sq_diff ar q c ≤ st.2 →
  (q ≤ c ∧ Forall (λ p, c ≤ key axis p) S) ∨
  (c < q ∧ Forall (λ p, key axis p ≤ c) S) →
  searched S st st.
Proof.
  intros Hdim Hq Hfin Hc Hat Hfar Hside. apply searched_refl. intros p Hp.
  assert (sq_diff ar q c ≤ dist_to p); [|lia].
  eapply (plane_distance D axis); try done.
  - by eapply Forall_forall in Hdim.
  - by eapply Forall_forall in Hfin.
  - destruct Hside as [[? HS]|[? HS]]; eapply Forall_forall in HS; eauto.
Qed.
End Search.

Lemma bind_Ok_l {A B} (a : A) (f : A → outcome B) : Ok a ≫= f = f a.
Proof. reflexivity. Qed.

Section SearchTree.
Variable ar : arith.
Variable T_max : Z.
Hypothesis arithmetic : arith_ok T_max ar.
Variable queryPoint : list Z.
Variable D : nat.
Hypothesis query_dimension : length queryPoint = D.
Hypothesis query_finite : finite_point T_max queryPoint.

Abbreviation searched := (searched ar queryPoint).

Local Ltac membership :=
  let p := fresh "p" in
  intros p; cbn [locations];
  rewrite ?elem_of_cons, ?elem_of_app, ?elem_of_cons, ?elem_of_nil; tauto.

Local Ltac visit_child IH s st' Hs :=
  let E := fresh "E" in
  destruct (IH s) as (st' & E & Hs); rewrite ?bind_Ok_l; cbn [visit];
  rewrite E; clear E; rewrite ?bind_Ok_l.

Local Ltac case_test P H :=
  destruct (bool_decide P) eqn:H;
  [apply bool_decide_eq_true in H | apply bool_decide_eq_false in H].

Local Ltac conclude chain :=
  rewrite ?bind_Ok_l; eexists; split; [reflexivity|];
  eapply searched_equiv; [|exact chain]; membership.

Local Ltac far_side :=
  eapply (searched_far ar _ T_max arithmetic query_finite D); eauto.

(** A visit of a node of a well-formed tree returns, and has searched
    every location of the subtree. *)
Lemma KDNode_nearestNeighbor_searched node :
  well_dimensioned D node → partitioned node → finite_locations T_max node →
  ∀ st, ∃ st',
    KDNode_nearestNeighbor ar node queryPoint st = Ok st' ∧
    searched (locations node) st st'.
Proof.
  induction node as [axis location leftNode rightNode IHl IHr] using KDNode_ind.
  intros (Hloc & Haxis & Hwl & Hwr) (Hpl & Hpr) Hfin st.
  unfold finite_locations in Hfin. cbn [locations] in Hfin.
  apply Forall_cons in Hfin as [Hfloc Hfin].
  apply Forall_app in Hfin as [Hfl Hfr].
  rewrite KDNode_nearestNeighbor_unfold.
  rewrite bool_decide_eq_true_2 by congruence. cbn [negb].
  rewrite squaredDistance_sqdist, bind_Ok_l by congruence.
  set (st1 := if bool_decide (sqdist ar (point location) queryPoint < st.2)
              then (location, sqdist ar (point location) queryPoint) else st).
  assert (searched [location] st st1) as H1 by apply searched_location.
  cbv zeta. clearbody st1.
  destruct (at_in_range queryPoint axis) as [q Hq]; [lia|].
  assert (has_coord axis location = true) as Hc by (apply has_coord_true; lia).
  apply at_key in Hc. set (c := key axis location) in *.
  assert (finite_value T_max c = true) as Hcf.
  { apply at_Ok in Hc as [_ Hc]. by eapply finite_point_lookup. }
  rewrite !Hq, !Hc, !bind_Ok_l.
  destruct leftNode as [l|], rightNode as [r|]; cbn [is_null negb on_child] in *.
  - (* both children *)
    destruct Hpl as [Hkl Hpl], Hpr as [Hkr Hpr].
    specialize (IHl Hwl Hpl Hfl). specialize (IHr Hwr Hpr Hfr).
    apply well_dimensioned_locations in Hwl, Hwr.
    rewrite !bind_Ok_l. case_test (q ≤ c) Hside.
    + visit_child IHl st1 st2 H2.
      case_test (sq_diff ar q c ≤ st2.2) Hplane.
      * visit_child IHr st2 st3 H3.
        conclude (searched_seq _ _ _ _ _ _ _ H1 (searched_seq _ _ _ _ _ _ _ H2 H3)).
      * assert (searched (locations r) st2 st2) as H3 by far_side.
        conclude (searched_seq _ _ _ _ _ _ _ H1 (searched_seq _ _ _ _ _ _ _ H2 H3)).
    + visit_child IHr st1 st2 H2.
      case_test (sq_diff ar q c ≤ st2.2) Hplane.
      * visit_child IHl st2 st3 H3.
        conclude (searched_seq _ _ _ _ _ _ _ H1 (searched_seq _ _ _ _ _ _ _ H2 H3)).
      * assert (searched (locations l) st2 st2) as H3.
        { far_side. right. split; [lia | done]. }
        conclude (searched_seq _ _ _ _ _ _ _ H1 (searched_seq _ _ _ _ _ _ _ H2 H3)).
  - (* left child only *)
    destruct Hpl as [Hkl Hpl]. specialize (IHl Hwl Hpl Hfl).
    apply well_dimensioned_locations in Hwl.
    rewrite !bind_Ok_l. case_test (q ≤ c) Hside.
    + visit_child IHl st1 st2 H2.
      case_test (sq_diff ar q c ≤ st2.2) Hplane.
      * visit_child IHl st2 st3 H3.
        conclude (searched_seq _ _ _ _ _ _ _ H1 (searched_seq _ _ _ _ _ _ _ H2 H3)).
      * conclude (searched_seq _ _ _ _ _ _ _ H1 H2).
    + rewrite ?bind_Ok_l. case_test (sq_diff ar q c ≤ st1.2) Hplane.
      * visit_child IHl st1 st2 H2.
        conclude (searched_seq _ _ _ _ _ _ _ H1 H2).
      * assert (searched (locations l) st1 st1) as H2.
        { far_side. right. split; [lia | done]. }
        conclude (searched_seq _ _ _ _ _ _ _ H1 H2).
  - (* right child only *)
    destruct Hpr as [Hkr Hpr]. specialize (IHr Hwr Hpr Hfr).
    rewrite !bind_Ok_l. visit_child IHr st1 st2 H2.
    case_test (sq_diff ar q c ≤ st2.2) Hplane; [case_test (q ≤ c) Hside|].
    + visit_child IHr st2 st3 H3.
      conclude (searched_seq _ _ _ _ _ _ _ H1 (searched_seq _ _ _ _ _ _ _ H2 H3)).
    + conclude (searched_seq _ _ _ _ _ _ _ H1 H2).
    + conclude (searched_seq _ _ _ _ _ _ _ H1 H2).
  - (* a leaf *)
    rewrite !bind_Ok_l.
    case_test (sq_diff ar q c ≤ st1.2) Hplane; conclude H1.
Qed.
End SearchTree.

(** ** bruteForceClosest *)

Lemma bruteForce_loop_scanned ar (query : list Z) (D : nat)
    (data : list (list Z)) (dd : nat) (st : list Z * Z * Z) :
  length query = D → Forall (λ p, length p = D) data →
  ∃ st',
    bruteForce_loop ar query dd data st = Ok st' ∧
    scanned ar query dd data st st'.
Proof.
  intros Hq Hdim. revert dd st.
  induction Hdim as [|p data Hp Hdim IH]; intros dd st.
  - exists st. split; [done|]. split_and!; [lia| |by left].
    intros p Hp. by apply elem_of_nil in Hp.
  - cbn [bruteForce_loop]. unfold bruteForce_step.
    rewrite <- Hq in Hp. rewrite <- Hp, sq_loop_sqdist, !bind_Ok_l by done.
    fold (sqdist ar p query).
    set (st1 := if bool_decide (sqdist ar p query < st.2)
                then (p, Z.of_nat dd, sqdist ar p query) else st).
    assert (st1.2 ≤ st.2 ∧ st1.2 ≤ sqdist ar p query ∧
            (st1 = st ∨
             st1 = (p, Z.of_nat dd, sqdist ar p query) ∧ st1.2 < st.2))
      as (Hle1 & Hmin1 & Hbest1).
    { unfold st1. case_bool_decide; simpl; split_and!; auto; lia. }
    clearbody st1.
    destruct (IH (S dd) st1) as (st' & -> & Hle & Hmin & Hbest).
    exists st'. split; [done|]. split_and!.
    + lia.
    + intros p' [->|Hp']%elem_of_cons; [lia | auto].
    + destruct Hbest as [->|(i & Hidx & Hi & Hd & Hlt)].
      * destruct Hbest1 as [->|[-> Hlt]]; [by left|].
        right. exists 0%nat. simpl in *. rewrite Nat.add_0_r. auto.
      * right. exists (S i). rewrite Hidx. simpl.
        split_and!; [f_equal; lia | done | done | lia].
Qed.

(** ** The claims on queries *)

(** The locations of a tree built from finite points are finite. *)
Lemma dataCopy_finite T_max (data : list (list Z)) :
  Forall (finite_point T_max) data →
  Forall (λ p, finite_point T_max (point p))
    (imap (λ ii p, mkIndexedPoint (Z.of_nat ii) p) data).
Proof.
  rewrite !Forall_forall. intros H x Hx.
  apply dataCopy_lookup in Hx as [_ Hx]. apply H.
  by eapply list_elem_of_lookup_2.
Qed.

Lemma KDNode_build_finite (nth_element : nth_element_t) T_max range axis node :
  nth_element_ok nth_element →
  Forall (λ p, finite_point T_max (point p)) range →
  KDNode_build nth_element range axis = Ok node →
  finite_locations T_max node.
Proof.
  intros Hok Hfin Hbuild. unfold finite_locations.
  rewrite Forall_forall in *. intros x Hx. apply Hfin.
  by apply (KDNode_build_locations _ Hok _ _ _ Hbuild).
Qed.

(** The search of the tree built from a well-formed dataset: it returns a
    point of the dataset, under its index, at the least computed distance. *)
Lemma KDTree_nearestNeighbor_built (nth_element : nth_element_t)
    (ar : arith) (T_max : Z) (D : nat) (data : list (list Z))
    (queryPoint : list Z) :
  nth_element_ok nth_element → arith_ok T_max ar →
  data ≠ [] → D ≠ 0%nat →
  Forall (λ p, length p = D) data → length queryPoint = D →
  Forall (finite_point T_max) data → finite_point T_max queryPoint →
  (∃ p, p ∈ data ∧ sqdist ar p queryPoint < T_max) →
  ∃ root best,
    KDTree_build nth_element data = Ok (mkCall (mkKDTree (Some root)) [] true) ∧
    KDTree_nearestNeighbor ar T_max (mkKDTree (Some root)) queryPoint
      = Ok (mkCall (mkKDTree (Some root)) [] best) ∧
    0 ≤ index best ∧
    data !! Z.to_nat (index best) = Some (point best) ∧
    sqdist ar (point best) queryPoint < T_max ∧
    (∀ p, p ∈ data →
          sqdist ar (point best) queryPoint ≤ sqdist ar p queryPoint).
Proof.
  intros Hok Har Hne HD Hdim Hq Hfin Hqfin (p0 & Hp0 & Hlt0).
  destruct (KDTree_build_defined nth_element Hok D data Hne HD Hdim)
    as [root Hbuild].
  pose proof Hbuild as Hroot.
  apply KDTree_build_Ok in Hroot as (root' & Hroot & [= <-]).
  pose proof (KDNode_build_locations _ Hok _ _ _ Hroot) as Hlocs.
  pose proof (KDNode_build_well_dimensioned _ Hok D _ _ _
                (dataCopy_dimension D data Hdim) Hroot) as Hwd.
  pose proof (KDNode_build_partitioned _ Hok _ _ _ Hroot) as Hpart.
  pose proof (KDNode_build_finite _ T_max _ _ _ Hok
                (dataCopy_finite T_max data Hfin) Hroot) as Hfl.
  assert (∀ p, p ∈ data → ∃ x, x ∈ locations root ∧ point x = p) as Hdata.
  { intros p [i Hi]%list_elem_of_lookup.
    exists (mkIndexedPoint (Z.of_nat i) p). split; [|done].
    apply Hlocs, dataCopy_lookup. simpl. rewrite Nat2Z.id.
    split; [lia | done]. }
  destruct (KDNode_nearestNeighbor_searched ar T_max Har queryPoint D Hq Hqfin
              root Hwd Hpart Hfl
              (mkIndexedPoint (-1) (replicate (length queryPoint) 0), T_max))
    as ([best bestSqrDistance] & Hnn & Hle & Hmin & Hbest).
  simpl in Hle, Hmin, Hbest.
  assert (bestSqrDistance < T_max) as Hfound.
  { destruct (Hdata p0 Hp0) as (x0 & Hx0 & <-). specialize (Hmin x0 Hx0).
    unfold dist_to in Hmin. lia. }
  destruct Hbest as [[= _ ?]|(Hin & Hd & _)]; [lia|]. unfold dist_to in Hd.
  apply Hlocs, dataCopy_lookup in Hin as [Hidx Hin].
  exists root, best. split_and!; try done.
  - unfold KDTree_nearestNeighbor. simpl. by rewrite Hnn.
  - lia.
  - intros p Hp. destruct (Hdata _ Hp) as (x & Hx & <-).
    specialize (Hmin _ Hx). unfold dist_to in Hmin. lia.
Qed.




(** C9: [KDTree::nearestNeighbor] on a tree without a root returns, with
    the message written to [cerr], the sentinel [IndexedPoint()], whose index
    is -1, and leaves the tree as it was. *)
Theorem KDTree_nearestNeighbor_not_built (ar : arith) (T_max : Z)
    (queryPoint : list Z) :
  KDTree_nearestNeighbor ar T_max (mkKDTree None) queryPoint =
    Ok (mkCall (mkKDTree None) ["No tree has been constructed"%string]
          IndexedPoint_default) ∧
  index IndexedPoint_default = -1.
Proof. split; reflexivity. Qed.

(** ** Serialization and deserialization *)

Lemma KDNode_write_unfold axis location leftNode rightNode :
  KDNode_write (mkKDNode axis location leftNode rightNode) =
    [axis] :: [index location] :: point location ::
    KDNode_write_child leftNode ++ KDNode_write_child rightNode.
Proof. reflexivity. Qed.

Lemma height_write node : (height node ≤ length (KDNode_write node))%nat.
Proof.
  induction node as [axis location leftNode rightNode IHl IHr] using KDNode_ind.
  rewrite KDNode_write_unfold. cbn [height length]. rewrite length_app.
  destruct leftNode, rightNode; simpl in *; lia.
Qed.

(** A line of finite values is read whole. *)
Lemma read_values_finite T_max (l : line) :
  finite_point T_max l → read_values T_max l = l.
Proof.
  induction 1 as [|x l Hx _ IH]; [done|]. simpl. by rewrite Hx, IH.
Qed.

(** Lines of finite values are parsed as they are. *)
Lemma parse_points_finite T_max (data : list (list Z)) :
  Forall (finite_point T_max) data → parse_points T_max (Some data) = data.
Proof.
  unfold parse_points.
  induction 1 as [|p data Hp _ IH]; [done|].
  rewrite fmap_cons, IH. by rewrite read_values_finite.
Qed.

Lemma first_line_dimension_finite T_max (p : list Z) (data : list (list Z)) :
  finite_point T_max p → first_line_dimension T_max (Some (p :: data)) = length p.
Proof. intros Hp. simpl. by rewrite read_values_finite. Qed.

(** A line with an [int] is read as that [int]. *)
Lemma intFromStream_int (val : Z) (rest : stream) :
  INT_MIN ≤ val ≤ INT_MAX → intFromStream ([val] :: rest) = (val, rest).
Proof.
  intros H. unfold intFromStream. cbn [getline].
  by rewrite bool_decide_eq_true_2.
Qed.

(** Reading back what was written for a child pointer gives the child and
    leaves the rest of the stream. *)
Lemma read_child_write T_max (child : option KDNode) (rest : stream)
    (fuel : nat) :
  on_child no_marker child → on_child (in_range T_max) child →
  (child_height child ≤ fuel)%nat →
  read_child (KDNode_read_fuel T_max fuel) (KDNode_write_child child ++ rest)
    = Some (rest, child).
Proof.
  destruct child as [node|]; [|done].
  cbn [on_child child_height KDNode_write_child].
  revert rest fuel.
  induction node as [axis location leftNode rightNode IHl IHr] using KDNode_ind.
  intros rest fuel (Haxis & Hl & Hr) (Hiaxis & Hidx & Hfin & Hil & Hir) Hfuel.
  rewrite KDNode_write_unfold. unfold read_child.
  cbn [app]. rewrite intFromStream_int by done.
  rewrite bool_decide_eq_false_2 by done.
  destruct fuel as [|fuel]; [simpl in Hfuel; lia|].
  cbn [KDNode_read_fuel]. unfold read_step.
  rewrite intFromStream_int by done. cbn [getline].
  cbn [KDNode_new_axis _location _axis IndexedPoint_default point app].
  rewrite read_values_finite by done.
  rewrite <- app_assoc.
  assert (read_child (KDNode_read_fuel T_max fuel)
            (KDNode_write_child leftNode ++ KDNode_write_child rightNode ++ rest)
          = Some (KDNode_write_child rightNode ++ rest, leftNode)) as ->.
  { destruct leftNode as [l|]; [|done]. apply IHl; [done|done|].
    cbn [height] in Hfuel. lia. }
  cbn [mbind option_bind].
  assert (read_child (KDNode_read_fuel T_max fuel)
            (KDNode_write_child rightNode ++ rest)
          = Some (rest, rightNode)) as ->.
  { destruct rightNode as [r|]; [|done]. apply IHr; [done|done|].
    cbn [height] in Hfuel. lia. }
  cbn [mbind option_bind]. by destruct location.
Qed.

Lemma KDTree_read_write T_max (tree : KDTree) :
  on_child no_marker (_rootNode tree) →
  on_child (in_range T_max) (_rootNode tree) →
  KDTree_read T_max (KDTree_write tree) KDTree_new = Some ([], tree).
Proof.
  destruct tree as [[root|]]; [|done]. cbn [_rootNode on_child].
  intros Hroot Hrange.
  pose proof (read_child_write T_max (Some root) []
                (length (KDNode_write root)) Hroot Hrange (height_write root))
    as H.
  cbn [KDNode_write_child] in H. rewrite app_nil_r in H.
  unfold KDTree_read, KDTree_write, KDTree_read_fuel. cbn [_rootNode].
  unfold read_child in H.
  destruct (intFromStream (KDNode_write root)) as [axis i].
  case_bool_decide; [done|].
  destruct (KDNode_read_fuel _ _ _ _) as [[i' root']|]; [|done].
  simpl in H. by injection H as -> ->.
Qed.

(** The tree built from points that are not too long, under indices that
    are [int]s, with finite coordinates, is within range. *)
Lemma KDNode_build_in_range (nth_element : nth_element_t) T_max range axis
    node :
  nth_element_ok nth_element →
  Forall (λ p, Z.of_nat (length (point p)) ≤ 2 ^ 31 ∧
               INT_MIN ≤ index p ≤ INT_MAX ∧
               finite_point T_max (point p)) range →
  KDNode_build nth_element range axis = Ok node → in_range T_max node.
Proof.
  intros Hok Hrange H. revert range axis node H Hrange.
  apply (KDNode_build_ind nth_element (nth_element_perm _ Hok)
           (λ range axis node,
              Forall (λ p, Z.of_nat (length (point p)) ≤ 2 ^ 31 ∧
                           INT_MIN ≤ index p ≤ INT_MAX ∧
                           finite_point T_max (point p)) range →
              in_range T_max node)).
  - intros start axis Hsize Hrange.
    apply Forall_cons in Hrange as [(Hlen & Hidx & Hfin) _].
    pose proof (axis_of_bound axis start Hsize) as Hmod.
    simpl. unfold INT_MIN, INT_MAX in *. split_and!; try done; lia.
  - intros start rest axis location leftNode rightNode range axis_ median range'
      Hsize _ _ Hloc _ IHl _ IHr Hrange.
    assert (Forall (λ p, Z.of_nat (length (point p)) ≤ 2 ^ 31 ∧
                         INT_MIN ≤ index p ≤ INT_MAX ∧
                         finite_point T_max (point p)) range') as Hrange'
      by (unfold range'; by rewrite (nth_element_perm _ Hok)).
    pose proof (Forall_lookup_1 _ _ _ _ Hrange' Hloc) as (_ & Hidx & Hfin).
    apply Forall_cons in Hrange as [(Hlen & _ & _) _].
    pose proof (axis_of_bound axis start Hsize) as Hmod. fold axis_ in Hmod.
    simpl. unfold INT_MIN, INT_MAX in *. split_and!; try done; try lia.
    + apply IHl. by apply Forall_take.
    + apply IHr. by apply Forall_drop.
Qed.

Lemma KDTree_build_in_range (nth_element : nth_element_t) T_max
    (data : list (list Z)) (root : KDNode) :
  nth_element_ok nth_element →
  Z.of_nat (length data) ≤ 2 ^ 31 →
  Forall (λ p, Z.of_nat (length p) ≤ 2 ^ 31) data →
  Forall (finite_point T_max) data →
  KDNode_build nth_element
    (imap (λ ii p, mkIndexedPoint (Z.of_nat ii) p) data) (-1) = Ok root →
  no_marker root ∧ in_range T_max root.
Proof.
  intros Hok Hn Hlen Hfin Hroot. split; [by eapply KDNode_build_no_marker|].
  eapply KDNode_build_in_range; [done| |exact Hroot].
  apply Forall_forall. intros x Hx.
  apply dataCopy_lookup in Hx as [H0 Hx].
  pose proof (lookup_lt_Some _ _ _ Hx) as Hlt.
  apply list_elem_of_lookup_2 in Hx.
  unfold INT_MIN, INT_MAX. split_and!; try lia.
  - by eapply Forall_forall in Hlen.
  - by eapply Forall_forall in Hfin.
Qed.

(** ** Deserialization returns on every stream *)

Lemma getline_length (i : stream) : (length (getline i).2 ≤ length i)%nat.
Proof. destruct i; simpl; lia. Qed.

Lemma intFromStream_length (i : stream) :
  (length (intFromStream i).2 ≤ length i)%nat.
Proof.
  unfold intFromStream.
  destruct i as [|[|val l] rest]; cbn [getline]; try case_bool_decide;
    simpl; lia.
Qed.

(** A line that is not read as -1 was there to be read. *)
Lemma intFromStream_consumes (i : stream) :
  (intFromStream i).1 ≠ -1 → (length (intFromStream i).2 < length i)%nat.
Proof.
  unfold intFromStream.
  destruct i as [|[|val l] rest]; cbn [getline]; try case_bool_decide;
    simpl; (done || lia).
Qed.

Section ReadTotal.
Variable T_max : Z.

Lemma read_child_total rec (bound : nat) (i : stream) :
  returns_shorter rec bound → (length i ≤ bound)%nat →
  ∃ i' child,
    read_child rec i = Some (i', child) ∧ (length i' ≤ length i)%nat.
Proof.
  intros Hrec Hlen. unfold read_child.
  pose proof (intFromStream_length i) as Hle.
  pose proof (intFromStream_consumes i) as Hlt.
  destruct (intFromStream i) as [axis i1]. simpl in Hle, Hlt.
  case_bool_decide as Haxis; [eauto|].
  destruct (Hrec i1 (KDNode_new_axis axis)) as (i' & n & -> & Hle'); [lia|].
  simpl. exists i', (Some n). split; [done | lia].
Qed.

Lemma KDNode_read_fuel_total (fuel : nat) (i : stream) (node : KDNode) :
  (length i < fuel)%nat →
  ∃ i' n,
    KDNode_read_fuel T_max fuel i node = Some (i', n) ∧
    (length i' ≤ length i)%nat.
Proof.
  revert i node. induction fuel as [|fuel IH]; intros i node Hlen; [lia|].
  cbn [KDNode_read_fuel]. unfold read_step.
  pose proof (intFromStream_length i) as H1.
  destruct (intFromStream i) as [idx i1]. simpl in H1.
  pose proof (getline_length i1) as H2.
  destruct (getline i1) as [l i2]. simpl in H2.
  destruct (read_child_total (KDNode_read_fuel T_max fuel) fuel i2 IH)
    as (i3 & leftNode & -> & H3); [lia|].
  cbn [mbind option_bind].
  destruct (read_child_total (KDNode_read_fuel T_max fuel) fuel i3 IH)
    as (i4 & rightNode & -> & H4); [lia|].
  cbn [mbind option_bind]. eexists _, _. split; [done | lia].
Qed.

Lemma KDTree_read_total (i : stream) (tree : KDTree) :
  ∃ i' tree', KDTree_read T_max i tree = Some (i', tree').
Proof.
  unfold KDTree_read, KDTree_read_fuel.
  pose proof (intFromStream_consumes i) as Hlt.
  destruct (intFromStream i) as [axis i1]. simpl in Hlt.
  case_bool_decide as Haxis; [eauto|].
  destruct (KDNode_read_fuel_total (length i) i1 (KDNode_new_axis axis))
    as (i' & root & -> & _); [auto|].
  simpl. eauto.
Qed.
End ReadTotal.

(** C2 as stated fails: the first point of [infinite_data] has an infinite
    coordinate.  The build succeeds and its tree answers the query [[3, 4]]
    with the second point; the infinity is written as text that is not read
    back as a number, the location of the root comes back without
    coordinates, and on the tree read back the same query fails the
    assertion of [KDNode::nearestNeighbor]. *)
Lemma deserialize_serialize_infinite :
  ∃ tree tree',
    KDTree_build nth_element_sort infinite_data = Ok (mkCall tree [] true) ∧
    KDTree_nearestNeighbor arith_double DBL_MAX tree [3; 4]
      = Ok (mkCall tree [] (mkIndexedPoint 1 [3; 4])) ∧
    KDTree_read DBL_MAX (KDTree_write tree) KDTree_new = Some ([], tree') ∧
    _location <$> _rootNode tree = Some (mkIndexedPoint 0 [2 ^ 1024; 5]) ∧
    _location <$> _rootNode tree' = Some (mkIndexedPoint 0 []) ∧
    KDTree_nearestNeighbor arith_double DBL_MAX tree' [3; 4] = Abort.
Proof.
  eexists _, _. split; [reflexivity|]. split; [vm_compute; reflexivity|].
  split; [vm_compute; reflexivity|]. split_and!; vm_compute; reflexivity.
Qed.

(** C2, amended: when the points given to a successful build have finite
    coordinates only (and sizes within the range of [int]), the tree read
    back from what the built tree writes is that tree, so it answers every
    query as the built tree does: with the same indexed point, index and
    coordinates, hence at the same distance, or with the same failure. *)
Theorem deserialize_serialize_answers (nth_element : nth_element_t)
    (ar : arith) (T_max : Z) (data : list (list Z)) (c : call bool)
    (queryPoint : list Z) :
  nth_element_ok nth_element →
  Z.of_nat (length data) ≤ 2 ^ 31 →
  Forall (λ p, Z.of_nat (length p) ≤ 2 ^ 31) data →
  Forall (finite_point T_max) data →
  KDTree_build nth_element data = Ok c →
  ∃ tree',
    KDTree_read T_max (KDTree_write (this_after c)) KDTree_new
      = Some ([], tree') ∧
    tree' = this_after c ∧
    KDTree_nearestNeighbor ar T_max tree' queryPoint =
      KDTree_nearestNeighbor ar T_max (this_after c) queryPoint.
Proof.
  intros Hok Hn Hlen Hfin H. apply KDTree_build_Ok in H as (root & Hroot & ->).
  destruct (KDTree_build_in_range _ T_max _ _ Hok Hn Hlen Hfin Hroot)
    as [Hmark Hrange].
  exists (mkKDTree (Some root)). split_and!; try done.
  by apply KDTree_read_write.
Qed.

Lemma deserialize_serialize_answers_witness :
  nth_element_ok nth_element_sort ∧
  Z.of_nat (length tie_data) ≤ 2 ^ 31 ∧
  Forall (λ p, Z.of_nat (length p) ≤ 2 ^ 31) tie_data ∧
  Forall (finite_point DBL_MAX) tie_data ∧
  ∃ c, KDTree_build nth_element_sort tie_data = Ok c ∧
    ∃ tree',
      KDTree_read DBL_MAX (KDTree_write (this_after c)) KDTree_new
        = Some ([], tree') ∧
      tree' = this_after c ∧
      KDTree_nearestNeighbor arith_double DBL_MAX tree' [0; 0] =
        KDTree_nearestNeighbor arith_double DBL_MAX (this_after c) [0; 0].
Proof.
  assert (Forall (λ p : list Z, Z.of_nat (length p) ≤ 2 ^ 31) tie_data)
    as Hlen by (repeat constructor; simpl; lia).
  assert (Forall (finite_point DBL_MAX) tie_data) as Hfin
    by (repeat constructor).
  split; [exact nth_element_sort_ok|]. split; [simpl; lia|].
  split; [exact Hlen|]. split; [exact Hfin|].
  eexists. split; [reflexivity|].
  apply (deserialize_serialize_answers nth_element_sort arith_double DBL_MAX
           tie_data);
    [exact nth_element_sort_ok | simpl; lia | exact Hlen | exact Hfin
    | reflexivity].
Defined.

(** C5 as stated fails: for a tree without a root nothing is written, not a
    line with -1. *)
Lemma KDTree_write_empty_no_marker :
  KDTree_write (mkKDTree None) ≠ [[NULLPTR_MARKER]].
Proof. discriminate. Qed.

(** C5, amended: serializing a tree without a root writes nothing, not even
    one line; reading that empty output into a new tree leaves it without a
    root, the end of the input being read as -1. *)
Theorem KDTree_write_empty (T_max : Z) :
  KDTree_write (mkKDTree None) = [] ∧
  intFromStream [] = (NULLPTR_MARKER, []) ∧
  KDTree_read T_max (KDTree_write (mkKDTree None)) KDTree_new
    = Some ([], mkKDTree None).
Proof. split_and!; reflexivity. Qed.

(** ** The scenario of the dataset [[0,0], [1,1], [2,2], [3,3]] and the
    query [[2.1, 2.1]], in tenths: the nearest point has index 2. *)

Example scenario_build_and_query :
  ∃ c,
    KDTree_build nth_element_sort scenario_data = Ok c ∧
    returned <$> outcome_to_option
      (KDTree_nearestNeighbor arith_double DBL_MAX (this_after c) [21; 21])
      = Some (mkIndexedPoint 2 [20; 20]) ∧
    bruteForceClosest arith_double DBL_MAX scenario_data [21; 21] = Ok 2 ∧
    squaredDistance arith_double [20; 20] [21; 21] = Ok 2.
Proof.
  eexists. split; [reflexivity|]. split_and!; vm_compute; reflexivity.
Qed.

(** * Further properties of the build *)

Section BuildShape.
Variable nth_element : nth_element_t.
Hypothesis nth_element_contract : nth_element_ok nth_element.

Let rearranges := nth_element_perm nth_element nth_element_contract.

Lemma half_bounds (n : nat) : (2 * (n / 2) ≤ n < 2 * (n / 2) + 2)%nat.
Proof.
  pose proof (Nat.div_mod_eq n 2) as Heq.
  pose proof (Nat.mod_upper_bound n 2 ltac:(lia)) as Hlt. lia.
Qed.

Lemma sub_ranges_length (comp : IndexedPoint → IndexedPoint → bool)
    (range : list IndexedPoint) :
  let median := (length range / 2)%nat in
  let range' := nth_element comp median range in
  length (take median range') = median ∧
  length (drop median range') = (length range - median)%nat.
Proof.
  intros median range'.
  assert (length range' = length range) as Hlen
    by (unfold range'; by rewrite rearranges).
  rewrite length_take, length_drop, Hlen.
  pose proof (half_bounds (length range)). fold median in H. lia.
Qed.

Lemma KDNode_build_leaves range axis node :
  KDNode_build nth_element range axis = Ok node → leaves node ≡ₚ range.
Proof.
  revert range axis node.
  apply (KDNode_build_ind nth_element rearranges
           (λ range _ node, leaves node ≡ₚ range)); [done|].
  intros start rest axis location leftNode rightNode range axis_ median range'
    _ _ _ _ _ IHl _ IHr.
  cbn [leaves]. rewrite IHl, IHr, take_drop. apply rearranges.
Qed.

Lemma KDNode_build_size range axis node :
  KDNode_build nth_element range axis = Ok node →
  (length (locations node) + 1 = 2 * length range)%nat.
Proof.
  revert range axis node.
  apply (KDNode_build_ind nth_element rearranges
           (λ range _ node,
              (length (locations node) + 1 = 2 * length range)%nat)); [done|].
  intros start rest axis location leftNode rightNode range axis_ median range'
    _ Hlen _ _ _ IHl _ IHr.
  destruct (sub_ranges_length (comp_of axis_) range) as [Hl Hr].
  fold median range' in Hl, Hr. rewrite Hl in IHl. rewrite Hr in IHr.
  cbn [locations length]. rewrite length_app.
  pose proof (median_bounds (length range) Hlen). fold median in H. lia.
Qed.

Lemma KDNode_build_height range axis node :
  KDNode_build nth_element range axis = Ok node →
  ∃ h, height node = S h ∧ (length range ≤ 2 ^ h < 2 * length range)%nat.
Proof.
  revert range axis node.
  apply (KDNode_build_ind nth_element rearranges
           (λ range _ node,
              ∃ h, height node = S h ∧
                   (length range ≤ 2 ^ h < 2 * length range)%nat)).
  - intros start axis _. exists 0%nat. simpl. lia.
  - intros start rest axis location leftNode rightNode range axis_ median range'
      _ Hlen _ _ _ (hl & Hhl & IHl) _ (hr & Hhr & IHr).
    destruct (sub_ranges_length (comp_of axis_) range) as [Hl Hr].
    fold median range' in Hl, Hr. rewrite Hl in IHl. rewrite Hr in IHr.
    pose proof (median_bounds (length range) Hlen) as Hm. fold median in Hm.
    pose proof (half_bounds (length range)) as Hhalf. fold median in Hhalf.
    clearbody median range'.
    exists (S (hl `max` hr)). cbn [height]. rewrite Hhl, Hhr.
    split; [done|]. rewrite Nat.pow_succ_r'.
    destruct (Nat.le_gt_cases hl hr) as [Hle|Hlt].
    + rewrite Nat.max_r by done.
      pose proof (Nat.pow_le_mono_r 2 hl hr ltac:(lia) Hle) as Hpow.
      destruct hr as [|hr'].
      * simpl in *. lia.
      * rewrite Nat.pow_succ_r' in *. lia.
    + rewrite Nat.max_l by lia.
      pose proof (Nat.pow_le_mono_r 2 hr hl ltac:(lia) ltac:(lia)) as Hpow.
      lia.
Qed.
End BuildShape.

(** X1: every point of the input, under its position in the input, is the
    location of exactly one leaf of the tree [KDTree::build] makes: the
    leaves, from left to right, are a rearrangement of the indexed input. *)
Theorem KDTree_build_leaves (nth_element : nth_element_t)
    (data : list (list Z)) (c : call bool) :
  nth_element_ok nth_element →
  KDTree_build nth_element data = Ok c →
  ∃ root, _rootNode (this_after c) = Some root ∧
    leaves root ≡ₚ imap (λ ii p, mkIndexedPoint (Z.of_nat ii) p) data.
Proof.
  intros Hok H. apply KDTree_build_Ok in H as (root & Hroot & ->).
  exists root. split; [done|]. by eapply KDNode_build_leaves.
Qed.

Lemma KDTree_build_leaves_witness :
  nth_element_ok nth_element_sort ∧
  ∃ c, KDTree_build nth_element_sort sample_data = Ok c ∧
    ∃ root, _rootNode (this_after c) = Some root ∧
      leaves root ≡ₚ imap (λ ii p, mkIndexedPoint (Z.of_nat ii) p) sample_data.
Proof.
  split; [exact nth_element_sort_ok|].
  eexists. split; [reflexivity|].
  apply (KDTree_build_leaves nth_element_sort sample_data);
    [exact nth_element_sort_ok | reflexivity].
Defined.

(** X2: the tree built from [n] points has [2 n - 1] nodes: one leaf for
    each point and [n - 1] inner nodes, whose locations are points stored a
    second time. *)
Theorem KDTree_build_size (nth_element : nth_element_t)
    (data : list (list Z)) (c : call bool) :
  nth_element_ok nth_element →
  KDTree_build nth_element data = Ok c →
  ∃ root, _rootNode (this_after c) = Some root ∧
    length (leaves root) = length data ∧
    (length (locations root) + 1 = 2 * length data)%nat.
Proof.
  intros Hok H. apply KDTree_build_Ok in H as (root & Hroot & ->).
  exists root. split; [done|]. split.
  - rewrite (KDNode_build_leaves _ Hok _ _ _ Hroot). apply length_imap.
  - rewrite (KDNode_build_size _ Hok _ _ _ Hroot). by rewrite length_imap.
Qed.

Lemma KDTree_build_size_witness :
  nth_element_ok nth_element_sort ∧
  ∃ c, KDTree_build nth_element_sort sample_data = Ok c ∧
    ∃ root, _rootNode (this_after c) = Some root ∧
      length (leaves root) = length sample_data ∧
      (length (locations root) + 1 = 2 * length sample_data)%nat.
Proof.
  split; [exact nth_element_sort_ok|].
  eexists. split; [reflexivity|].
  apply (KDTree_build_size nth_element_sort sample_data);
    [exact nth_element_sort_ok | reflexivity].
Defined.

(** X3: the built tree is balanced whatever the coordinates are: with [n]
    points, the longest path from the root to a leaf has [h + 1] nodes where
    [n ≤ 2 ^ h < 2 n], that is [h] is the base-2 logarithm of [n] rounded
    up. *)
Theorem KDTree_build_height (nth_element : nth_element_t)
    (data : list (list Z)) (c : call bool) :
  nth_element_ok nth_element →
  KDTree_build nth_element data = Ok c →
  ∃ root h, _rootNode (this_after c) = Some root ∧
    height root = S h ∧ (length data ≤ 2 ^ h < 2 * length data)%nat.
Proof.
  intros Hok H. apply KDTree_build_Ok in H as (root & Hroot & ->).
  destruct (KDNode_build_height _ Hok _ _ _ Hroot) as (h & Hh & Hbound).
  rewrite length_imap in Hbound. eauto.
Qed.

Lemma KDTree_build_height_witness :
  nth_element_ok nth_element_sort ∧
  ∃ c, KDTree_build nth_element_sort sample_data = Ok c ∧
    ∃ root h, _rootNode (this_after c) = Some root ∧
      height root = S h ∧
      (length sample_data ≤ 2 ^ h < 2 * length sample_data)%nat.
Proof.
  split; [exact nth_element_sort_ok|].
  eexists. split; [reflexivity|].
  apply (KDTree_build_height nth_element_sort sample_data);
    [exact nth_element_sort_ok | reflexivity].
Defined.

(** X4: in the tree built from points of [D] coordinates each, every
    location has [D] coordinates, every axis is in [0, D), and on the axis of
    each node no point of its left subtree has a greater coordinate than its
    location and no point of its right subtree a smaller one. *)
Theorem KDTree_build_partitioned (nth_element : nth_element_t)
    (D : nat) (data : list (list Z)) (c : call bool) :
  nth_element_ok nth_element →
  Forall (λ p, length p = D) data →
  KDTree_build nth_element data = Ok c →
  ∃ root, _rootNode (this_after c) = Some root ∧
    well_dimensioned D root ∧ partitioned root.
Proof.
  intros Hok Hdim H. apply KDTree_build_Ok in H as (root & Hroot & ->).
  apply dataCopy_dimension in Hdim.
  exists root. split_and!; [done| |].
  - exact (KDNode_build_well_dimensioned _ Hok D _ _ _ Hdim Hroot).
  - exact (KDNode_build_partitioned _ Hok _ _ _ Hroot).
Qed.

Lemma KDTree_build_partitioned_witness :
  nth_element_ok nth_element_sort ∧
  Forall (λ p, length p = 2%nat) sample_data ∧
  ∃ c, KDTree_build nth_element_sort sample_data = Ok c ∧
    ∃ root, _rootNode (this_after c) = Some root ∧
      well_dimensioned 2 root ∧ partitioned root.
Proof.
  assert (Forall (λ p : list Z, length p = 2%nat) sample_data) as Hdim
    by (repeat constructor).
  split; [exact nth_element_sort_ok|]. split; [exact Hdim|].
  eexists. split; [reflexivity|].
  apply (KDTree_build_partitioned nth_element_sort 2 sample_data);
    [exact nth_element_sort_ok | exact Hdim | reflexivity].
Defined.

(** * Further properties of the helper functions *)

Lemma sq_sum_sym ar (dist : Z) (a b : list Z) :
  (∀ x y, sq_diff ar x y = sq_diff ar y x) →
  sq_sum ar dist a b = sq_sum ar dist b a.
Proof.
  intros Hsym. unfold sq_sum. revert b dist.
  induction a as [|x a IH]; intros [|y b] dist; simpl; try done.
  by rewrite IH, (Hsym x y).
Qed.

(** X5: [squaredDistance] does not depend on the order of its arguments:
    for vectors of one size it returns the same sum either way, and for
    vectors of different sizes its assertion fails either way.  Of the
    arithmetic this takes that [(x - y) * (x - y)] and [(y - x) * (y - x)]
    are the same number. *)
Theorem squaredDistance_sym (ar : arith) (a b : list Z) :
  (∀ x y, sq_diff ar x y = sq_diff ar y x) →
  squaredDistance ar a b = squaredDistance ar b a.
Proof.
  intros Hsym. unfold squaredDistance. case_bool_decide as Hab.
  - rewrite bool_decide_eq_true_2 by done.
    rewrite !sq_loop_sqdist by done. by rewrite sq_sum_sym.
  - by rewrite bool_decide_eq_false_2 by congruence.
Qed.

Lemma squaredDistance_sym_witness :
  (∀ x y, sq_diff arith_double x y = sq_diff arith_double y x) ∧
  squaredDistance arith_double [134217729; 0] [0; 0]
    = squaredDistance arith_double [0; 0] [134217729; 0].
Proof.
  split; [exact arith_double_sym|].
  apply (squaredDistance_sym arith_double [134217729; 0] [0; 0]).
  exact arith_double_sym.
Defined.

(** X7: on points that have a coordinate on the axis, the coordinates
    being ordered values (a NaN is none), [IndexedPointCompare] is a strict
    weak ordering, as [std::nth_element] requires of its comparison: no point
    is before itself, the order is transitive, and so is being unordered. *)
Theorem IndexedPointCompare_strict_weak (axis : Z) (i j k : IndexedPoint) :
  has_coord axis i = true → has_coord axis j = true → has_coord axis k = true →
  IndexedPointCompare axis i i = Ok false ∧
  (IndexedPointCompare axis i j = Ok true →
   IndexedPointCompare axis j k = Ok true →
   IndexedPointCompare axis i k = Ok true) ∧
  (IndexedPointCompare axis i j = Ok false →
   IndexedPointCompare axis j i = Ok false →
   IndexedPointCompare axis j k = Ok false →
   IndexedPointCompare axis k j = Ok false →
   IndexedPointCompare axis i k = Ok false ∧
   IndexedPointCompare axis k i = Ok false).
Proof.
  intros Hi Hj Hk. unfold IndexedPointCompare.
  rewrite (at_key _ _ Hi), (at_key _ _ Hj), (at_key _ _ Hk), !bind_Ok_l.
  split_and!.
  - f_equal. apply bool_decide_eq_false. lia.
  - intros [= H1%bool_decide_eq_true] [= H2%bool_decide_eq_true].
    f_equal. apply bool_decide_eq_true. lia.
  - intros [= H1%bool_decide_eq_false] [= H2%bool_decide_eq_false]
      [= H3%bool_decide_eq_false] [= H4%bool_decide_eq_false].
    split; f_equal; apply bool_decide_eq_false; lia.
Qed.

Lemma IndexedPointCompare_strict_weak_witness :
  has_coord 1 (mkIndexedPoint 0 [4; 1]) = true ∧
  has_coord 1 (mkIndexedPoint 1 [3; 2]) = true ∧
  has_coord 1 (mkIndexedPoint 2 [2; 3]) = true ∧
  IndexedPointCompare 1 (mkIndexedPoint 0 [4; 1]) (mkIndexedPoint 0 [4; 1])
    = Ok false ∧
  (IndexedPointCompare 1 (mkIndexedPoint 0 [4; 1]) (mkIndexedPoint 1 [3; 2])
     = Ok true →
   IndexedPointCompare 1 (mkIndexedPoint 1 [3; 2]) (mkIndexedPoint 2 [2; 3])
     = Ok true →
   IndexedPointCompare 1 (mkIndexedPoint 0 [4; 1]) (mkIndexedPoint 2 [2; 3])
     = Ok true) ∧
  (IndexedPointCompare 1 (mkIndexedPoint 0 [4; 1]) (mkIndexedPoint 1 [3; 2])
     = Ok false →
   IndexedPointCompare 1 (mkIndexedPoint 1 [3; 2]) (mkIndexedPoint 0 [4; 1])
     = Ok false →
   IndexedPointCompare 1 (mkIndexedPoint 1 [3; 2]) (mkIndexedPoint 2 [2; 3])
     = Ok false →
   IndexedPointCompare 1 (mkIndexedPoint 2 [2; 3]) (mkIndexedPoint 1 [3; 2])
     = Ok false →
   IndexedPointCompare 1 (mkIndexedPoint 0 [4; 1]) (mkIndexedPoint 2 [2; 3])
     = Ok false ∧
   IndexedPointCompare 1 (mkIndexedPoint 2 [2; 3]) (mkIndexedPoint 0 [4; 1])
     = Ok false).
Proof.
  split; [reflexivity|]. split; [reflexivity|]. split; [reflexivity|].
  apply (IndexedPointCompare_strict_weak 1); reflexivity.
Defined.

(** * Further properties of the search *)

(** X9: building from one point gives a tree whose root is a leaf holding
    that point under index 0, whatever [nth_element] does, and every query of
    the point's dimension for which the squared distance computed is below
    [T_max] returns that point.  The coordinates are finite; nothing else is
    taken of the arithmetic. *)
Theorem single_point_dataset (nth_element : nth_element_t) (ar : arith)
    (T_max : Z) (p queryPoint : list Z) (distance : Z) :
  p ≠ [] → finite_point T_max p → finite_point T_max queryPoint →
  squaredDistance ar p queryPoint = Ok distance → distance < T_max →
  let tree := mkKDTree (Some (mkKDNode 0 (mkIndexedPoint 0 p) None None)) in
  KDTree_build nth_element [p] = Ok (mkCall tree [] true) ∧
  KDTree_nearestNeighbor ar T_max tree queryPoint
    = Ok (mkCall tree [] (mkIndexedPoint 0 p)).
Proof.
  intros Hp _ _ Hd Hlt tree.
  assert (length p = length queryPoint) as Hlen.
  { unfold squaredDistance in Hd. by case_bool_decide. }
  split.
  - unfold KDTree_build, KDNode_build. cbn [imap length build_fuel].
    unfold build_step. cbn [point length].
    rewrite bool_decide_eq_false_2 by (by destruct p).
    rewrite bool_decide_eq_true_2 by lia.
    unfold size_t_of_int. cbn [Z.add Z.opp]. replace (-1 + 1) with 0 by lia.
    rewrite (Z.mod_0_l (2 ^ 64)) by lia.
    rewrite Z.mod_0_l by (destruct p; simpl in *; [done | lia]). done.
  - unfold KDTree_nearestNeighbor, tree. cbn [_rootNode].
    rewrite KDNode_nearestNeighbor_unfold. cbn [point is_null negb].
    rewrite bool_decide_eq_true_2 by done. cbn [negb].
    rewrite Hd, !bind_Ok_l. cbn [snd].
    rewrite bool_decide_eq_true_2 by done.
    destruct (at_in_range queryPoint 0) as [q Hq];
      [destruct p; simpl in *; [done | lia]|].
    destruct (at_in_range p 0) as [c Hc]; [destruct p; simpl in *; [done | lia]|].
    rewrite Hq, Hc, !bind_Ok_l. by case_bool_decide.
Qed.

Lemma single_point_dataset_witness :
  [134217729; 0] ≠ [] ∧
  finite_point DBL_MAX [134217729; 0] ∧ finite_point DBL_MAX [0; 0] ∧
  squaredDistance arith_double [134217729; 0] [0; 0]
    = Ok 18014398777917440 ∧
  18014398777917440 < DBL_MAX ∧
  let tree :=
    mkKDTree (Some (mkKDNode 0 (mkIndexedPoint 0 [134217729; 0]) None None)) in
  KDTree_build nth_element_sort [[134217729; 0]] = Ok (mkCall tree [] true) ∧
  KDTree_nearestNeighbor arith_double DBL_MAX tree [0; 0]
    = Ok (mkCall tree [] (mkIndexedPoint 0 [134217729; 0])).
Proof.
  assert (squaredDistance arith_double [134217729; 0] [0; 0]
            = Ok 18014398777917440) as Hd by (vm_compute; reflexivity).
  assert (18014398777917440 < DBL_MAX) as Hlt by (vm_compute; reflexivity).
  assert (finite_point DBL_MAX [134217729; 0]) as Hp by (repeat constructor).
  assert (finite_point DBL_MAX [0; 0]) as Hq by (repeat constructor).
  split; [discriminate|]. split; [exact Hp|]. split; [exact Hq|].
  split; [exact Hd|]. split; [exact Hlt|].
  apply (single_point_dataset nth_element_sort arith_double DBL_MAX
           [134217729; 0] [0; 0] 18014398777917440);
    [discriminate | exact Hp | exact Hq | exact Hd | exact Hlt].
Defined.

(** X10: on a tree built from points of [D] coordinates, a query with
    another number of coordinates fails the assertion of
    [KDNode::nearestNeighbor] at the root: the call aborts and returns no
    point. *)
Theorem nearestNeighbor_dimension_mismatch (nth_element : nth_element_t)
    (ar : arith) (T_max : Z) (D : nat) (data : list (list Z)) (c : call bool)
    (queryPoint : list Z) :
  nth_element_ok nth_element →
  Forall (λ p, length p = D) data →
  KDTree_build nth_element data = Ok c →
  length queryPoint ≠ D →
  KDTree_nearestNeighbor ar T_max (this_after c) queryPoint = Abort.
Proof.
  intros Hok Hdim H Hq. apply KDTree_build_Ok in H as (root & Hroot & ->).
  apply dataCopy_dimension in Hdim.
  pose proof (KDNode_build_well_dimensioned _ Hok D _ _ _ Hdim Hroot) as Hwd.
  destruct root as [axis location leftNode rightNode].
  destruct Hwd as (Hloc & _). unfold KDTree_nearestNeighbor. cbn [this_after _rootNode].
  rewrite KDNode_nearestNeighbor_unfold.
  by rewrite bool_decide_eq_false_2 by congruence.
Qed.

Lemma nearestNeighbor_dimension_mismatch_witness :
  nth_element_ok nth_element_sort ∧
  Forall (λ p, length p = 2%nat) sample_data ∧
  length [1; 2; 3] ≠ 2%nat ∧
  ∃ c, KDTree_build nth_element_sort sample_data = Ok c ∧
    KDTree_nearestNeighbor arith_double 1000 (this_after c) [1; 2; 3] = Abort.
Proof.
  assert (Forall (λ p : list Z, length p = 2%nat) sample_data) as Hdim
    by (repeat constructor).
  split; [exact nth_element_sort_ok|]. split; [exact Hdim|].
  split; [discriminate|].
  eexists. split; [reflexivity|].
  apply (nearestNeighbor_dimension_mismatch nth_element_sort arith_double 1000
           2 sample_data);
    [exact nth_element_sort_ok | exact Hdim | reflexivity | discriminate].
Defined.

Lemma location_in_locations (node : KDNode) :
  _location node ∈ locations node.
Proof. destruct node. apply list_elem_of_here. Qed.

Section SearchAnyTree.
Variable ar : arith.
Variable queryPoint : list Z.
Variable D : nat.
Hypothesis query_dimension : length queryPoint = D.

Local Ltac case_test P H :=
  destruct (bool_decide P) eqn:H;
  [apply bool_decide_eq_true in H | apply bool_decide_eq_false in H].

Local Ltac visit_child IH s st' V Hs HV :=
  let E := fresh "E" in
  destruct (IH s) as (st' & V & E & Hs & HV); rewrite ?bind_Ok_l; cbn [visit];
  rewrite E; clear E; rewrite ?bind_Ok_l.

Local Ltac conclude chain :=
  rewrite ?bind_Ok_l; eexists _, _; split; [reflexivity|];
  split; [exact chain|];
  let x := fresh "x" in
  intros x; cbn [locations];
  rewrite ?elem_of_app, ?elem_of_cons, ?elem_of_app, ?elem_of_nil;
  intuition (subst; eauto using location_in_locations).

(** A visit of a node of any tree whose locations and axes fit the query
    returns, and has searched some of the locations of the subtree, the
    location of the node among them. *)
Lemma KDNode_nearestNeighbor_visits node :
  well_dimensioned D node →
  ∀ st, ∃ st' V,
    KDNode_nearestNeighbor ar node queryPoint st = Ok st' ∧
    searched ar queryPoint (_location node :: V) st st' ∧
    (∀ x, x ∈ V → x ∈ locations node).
Proof.
  induction node as [axis location leftNode rightNode IHl IHr] using KDNode_ind.
  intros (Hloc & Haxis & Hwl & Hwr) st.
  rewrite KDNode_nearestNeighbor_unfold.
  rewrite bool_decide_eq_true_2 by congruence. cbn [negb _location].
  rewrite squaredDistance_sqdist, bind_Ok_l by congruence.
  set (st1 := if bool_decide (sqdist ar (point location) queryPoint < st.2)
              then (location, sqdist ar (point location) queryPoint) else st).
  assert (searched ar queryPoint [location] st st1) as H1
    by apply searched_location.
  cbv zeta. clearbody st1.
  destruct (at_in_range queryPoint axis) as [q Hq]; [lia|].
  destruct (at_in_range (point location) axis) as [c Hc]; [lia|].
  rewrite !Hq, !Hc, !bind_Ok_l.
  destruct leftNode as [l|], rightNode as [r|]; cbn [is_null negb on_child] in *.
  - specialize (IHl Hwl). specialize (IHr Hwr).
    rewrite !bind_Ok_l. case_test (q ≤ c) Hside.
    + visit_child IHl st1 st2 V2 H2 HV2.
      case_test (sq_diff ar q c ≤ st2.2) Hplane.
      * visit_child IHr st2 st3 V3 H3 HV3.
        conclude (searched_seq _ _ _ _ _ _ _ H1 (searched_seq _ _ _ _ _ _ _ H2 H3)).
      * conclude (searched_seq _ _ _ _ _ _ _ H1 H2).
    + visit_child IHr st1 st2 V2 H2 HV2.
      case_test (sq_diff ar q c ≤ st2.2) Hplane.
      * visit_child IHl st2 st3 V3 H3 HV3.
        conclude (searched_seq _ _ _ _ _ _ _ H1 (searched_seq _ _ _ _ _ _ _ H2 H3)).
      * conclude (searched_seq _ _ _ _ _ _ _ H1 H2).
  - specialize (IHl Hwl).
    rewrite !bind_Ok_l. case_test (q ≤ c) Hside.
    + visit_child IHl st1 st2 V2 H2 HV2.
      case_test (sq_diff ar q c ≤ st2.2) Hplane.
      * visit_child IHl st2 st3 V3 H3 HV3.
        conclude (searched_seq _ _ _ _ _ _ _ H1 (searched_seq _ _ _ _ _ _ _ H2 H3)).
      * conclude (searched_seq _ _ _ _ _ _ _ H1 H2).
    + rewrite ?bind_Ok_l. case_test (sq_diff ar q c ≤ st1.2) Hplane.
      * visit_child IHl st1 st2 V2 H2 HV2.
        conclude (searched_seq _ _ _ _ _ _ _ H1 H2).
      * conclude (searched_seq _ _ _ _ _ _ _ H1 (searched_nil ar queryPoint st1)).
  - specialize (IHr Hwr).
    rewrite !bind_Ok_l. visit_child IHr st1 st2 V2 H2 HV2.
    case_test (sq_diff ar q c ≤ st2.2) Hplane; [case_test (q ≤ c) Hside|].
    + visit_child IHr st2 st3 V3 H3 HV3.
      conclude (searched_seq _ _ _ _ _ _ _ H1 (searched_seq _ _ _ _ _ _ _ H2 H3)).
    + conclude (searched_seq _ _ _ _ _ _ _ H1 H2).
    + conclude (searched_seq _ _ _ _ _ _ _ H1 H2).
  - rewrite !bind_Ok_l.
    case_test (sq_diff ar q c ≤ st1.2) Hplane;
      conclude (searched_seq _ _ _ _ _ _ _ H1 (searched_nil ar queryPoint st1)).
Qed.
End SearchAnyTree.

(** X11: on any tree whose locations all have the query's number of
    coordinates, all finite as those of the query, and whose axes are within
    it, built or read from a stream or neither, also one that is not
    partitioned, [KDTree::nearestNeighbor] returns without touching the
    tree; nothing is taken of the arithmetic.  The
    point returned is either the initial [best] (index -1, all coordinates
    0), and then the squared distance computed for the location of the root
    is not below [T_max]; or a location of the tree for which the squared
    distance computed is below [T_max] and no more than the one computed for
    the location of the root. *)
Theorem nearestNeighbor_any_tree (ar : arith) (T_max : Z) (D : nat)
    (root : KDNode) (queryPoint : list Z) :
  well_dimensioned D root → length queryPoint = D →
  finite_locations T_max root → finite_point T_max queryPoint →
  ∃ best,
    KDTree_nearestNeighbor ar T_max (mkKDTree (Some root)) queryPoint
      = Ok (mkCall (mkKDTree (Some root)) [] best) ∧
    ((best = mkIndexedPoint (-1) (replicate D 0) ∧
      T_max ≤ sqdist ar (point (_location root)) queryPoint) ∨
     (best ∈ locations root ∧
      sqdist ar (point best) queryPoint < T_max ∧
      sqdist ar (point best) queryPoint
        ≤ sqdist ar (point (_location root)) queryPoint)).
Proof.
  intros Hwd Hq _ _.
  destruct (KDNode_nearestNeighbor_visits ar queryPoint D Hq root Hwd
              (mkIndexedPoint (-1) (replicate (length queryPoint) 0), T_max))
    as ([best bestSqrDistance] & V & Hnn & (Hle & Hmin & Hbest) & HV).
  simpl in Hle, Hmin, Hbest.
  pose proof (Hmin (_location root) (list_elem_of_here _ _)) as Hroot.
  unfold dist_to in Hroot.
  exists best. split.
  - unfold KDTree_nearestNeighbor. simpl. by rewrite Hnn.
  - destruct Hbest as [[= -> ->]|(Hin & Hd & Hlt)].
    + left. by rewrite Hq.
    + right. unfold dist_to in Hd. split_and!; [|lia|lia].
      apply elem_of_cons in Hin as [->|Hin]; [|by apply HV].
      apply location_in_locations.
Qed.

Lemma nearestNeighbor_any_tree_witness :
  well_dimensioned 1 far_node ∧ length [0] = 1%nat ∧
  finite_locations DBL_MAX far_node ∧ finite_point DBL_MAX [0] ∧
  ∃ best,
    KDTree_nearestNeighbor arith_double DBL_MAX (mkKDTree (Some far_node)) [0]
      = Ok (mkCall (mkKDTree (Some far_node)) [] best) ∧
    ((best = mkIndexedPoint (-1) (replicate 1 0) ∧
      DBL_MAX ≤ sqdist arith_double (point (_location far_node)) [0]) ∨
     (best ∈ locations far_node ∧
      sqdist arith_double (point best) [0] < DBL_MAX ∧
      sqdist arith_double (point best) [0]
        ≤ sqdist arith_double (point (_location far_node)) [0])).
Proof.
  assert (well_dimensioned 1 far_node) as Hwd by (simpl; lia).
  assert (finite_locations DBL_MAX far_node) as Hfin by (repeat constructor).
  assert (finite_point DBL_MAX [0]) as Hq by (repeat constructor).
  split; [exact Hwd|]. split; [reflexivity|]. split; [exact Hfin|].
  split; [exact Hq|].
  apply (nearestNeighbor_any_tree arith_double DBL_MAX 1 far_node [0]);
    [exact Hwd | reflexivity | exact Hfin | exact Hq].
Defined.

(** * Further properties of bruteForceClosest *)

(** The scan keeps the first of the nearest points: every point before the
    one it ends with is farther. *)
Lemma bruteForce_loop_first ar (query : list Z) (D : nat)
    (data : list (list Z)) (dd : nat) (st : list Z * Z * Z) :
  length query = D → Forall (λ p, length p = D) data →
  ∃ st',
    bruteForce_loop ar query dd data st = Ok st' ∧
    scanned ar query dd data st st' ∧
    (st' = st ∨
     ∀ j pj, data !! j = Some pj → (Z.of_nat (dd + j) < st'.1.2) →
             st'.2 < sqdist ar pj query).
Proof.
  intros Hq Hdim. revert dd st.
  induction Hdim as [|p data Hp Hdim IH]; intros dd st.
  - exists st. split; [done|]. split; [|by left].
    split_and!; [lia| |by left]. intros p Hp. by apply elem_of_nil in Hp.
  - destruct (bruteForce_loop_scanned ar query D (p :: data) dd st Hq)
      as (st' & Hloop & Hscan); [by constructor|].
    exists st'. split; [done|]. split; [done|].
    cbn [bruteForce_loop] in Hloop. unfold bruteForce_step in Hloop.
    rewrite <- Hq in Hp.
    rewrite <- Hp, sq_loop_sqdist, !bind_Ok_l in Hloop by done.
    fold (sqdist ar p query) in Hloop.
    set (st1 := if bool_decide (sqdist ar p query < st.2)
                then (p, Z.of_nat dd, sqdist ar p query) else st) in *.
    assert (st1.2 ≤ sqdist ar p query ∧
            (st1 = st ∨ st1 = (p, Z.of_nat dd, sqdist ar p query)))
      as (Hmin1 & Hbest1).
    { unfold st1. case_bool_decide; simpl; split; auto; lia. }
    clearbody st1.
    destruct (IH (S dd) st1) as (st'' & Hloop' & (Hle & Hmin & Hbest) & Hfirst).
    assert (st'' = st') as -> by congruence.
    destruct Hbest as [->|(i & Hidx & Hi & Hd & Hlt)].
    + destruct Hbest1 as [-> | ->]; [by left|].
      right. simpl. intros j pj Hj Hlt. lia.
    + right. intros [|j] pj Hj Hjlt.
      * injection Hj as <-. lia.
      * destruct Hfirst as [->|Hfirst]; [lia|].
        apply (Hfirst j pj Hj). lia.
Qed.

(** X12: on a dataset of points of the query's dimension, for one of
    which the squared distance computed is below [T_max], [bruteForceClosest]
    returns the position of the first of the points for which the least
    squared distance is computed: for no point a smaller one is computed than
    for the point at the position returned, and a greater one is computed for
    every point at a smaller position.  The coordinates are finite; nothing
    else is taken of the arithmetic. *)
Theorem bruteForceClosest_first_nearest (ar : arith) (T_max : Z) (D : nat)
    (data : list (list Z)) (query : list Z) :
  length query = D → Forall (λ p, length p = D) data →
  Forall (finite_point T_max) data → finite_point T_max query →
  (∃ p, p ∈ data ∧ sqdist ar p query < T_max) →
  ∃ (i : nat) (best : list Z),
    bruteForceClosest ar T_max data query = Ok (Z.of_nat i) ∧
    data !! i = Some best ∧
    (∀ p, p ∈ data → sqdist ar best query ≤ sqdist ar p query) ∧
    (∀ j pj, (j < i)%nat → data !! j = Some pj →
             sqdist ar best query < sqdist ar pj query).
Proof.
  intros Hq Hdim _ _ (p0 & Hp0 & Hlt0).
  destruct (bruteForce_loop_first ar query D data 0 ([], -1, T_max) Hq Hdim)
    as ([[bfBest bfIndex] bfDist] & Hbf & (Hle & Hmin & Hbest) & Hfirst).
  simpl in Hle, Hmin, Hbest, Hfirst.
  assert (bfDist < T_max) as Hfound by (specialize (Hmin p0 Hp0); lia).
  destruct Hbest as [[= _ _ ?]|(i & Hi & Hbfi & Hd & _)]; [lia|].
  destruct Hfirst as [[= _ _ ?]|Hfirst]; [lia|].
  simpl in Hi. subst bfIndex bfDist.
  exists i, bfBest. split_and!; try done.
  - unfold bruteForceClosest. by rewrite Hbf.
  - intros j pj Hj Hpj. apply (Hfirst j pj Hpj). simpl. lia.
Qed.

Lemma bruteForceClosest_first_nearest_witness :
  length [0; 0] = 2%nat ∧ Forall (λ p, length p = 2%nat) tie_data ∧
  Forall (finite_point DBL_MAX) tie_data ∧ finite_point DBL_MAX [0; 0] ∧
  (∃ p, p ∈ tie_data ∧ sqdist arith_double p [0; 0] < DBL_MAX) ∧
  ∃ (i : nat) (best : list Z),
    bruteForceClosest arith_double DBL_MAX tie_data [0; 0] = Ok (Z.of_nat i) ∧
    tie_data !! i = Some best ∧
    (∀ p, p ∈ tie_data →
          sqdist arith_double best [0; 0] ≤ sqdist arith_double p [0; 0]) ∧
    (∀ j pj, (j < i)%nat → tie_data !! j = Some pj →
             sqdist arith_double best [0; 0] < sqdist arith_double pj [0; 0]).
Proof.
  assert (Forall (λ p : list Z, length p = 2%nat) tie_data) as Hdim
    by (repeat constructor).
  assert (∃ p, p ∈ tie_data ∧ sqdist arith_double p [0; 0] < DBL_MAX)
    as Hnear.
  { exists [134217728; 16384]. split; [apply list_elem_of_here|].
    vm_compute. reflexivity. }
  assert (Forall (finite_point DBL_MAX) tie_data) as Hfin
    by (repeat constructor).
  assert (finite_point DBL_MAX [0; 0]) as Hqfin by (repeat constructor).
  split; [reflexivity|]. split; [exact Hdim|]. split; [exact Hfin|].
  split; [exact Hqfin|]. split; [exact Hnear|].
  apply (bruteForceClosest_first_nearest arith_double DBL_MAX 2 tie_data
           [0; 0]);
    [reflexivity | exact Hdim | exact Hfin | exact Hqfin | exact Hnear].
Defined.

(** X13: when for no point of the dataset a squared distance below
    [T_max] is computed, and so for an empty dataset, [bruteForceClosest]
    returns -1.  The coordinates are finite; nothing else is taken of the
    arithmetic. *)
Theorem bruteForceClosest_none (ar : arith) (T_max : Z) (D : nat)
    (data : list (list Z)) (query : list Z) :
  length query = D → Forall (λ p, length p = D) data →
  Forall (finite_point T_max) data → finite_point T_max query →
  (∀ p, p ∈ data → T_max ≤ sqdist ar p query) →
  bruteForceClosest ar T_max data query = Ok (-1).
Proof.
  intros Hq Hdim _ _ Hfar.
  destruct (bruteForce_loop_scanned ar query D data 0 ([], -1, T_max) Hq Hdim)
    as ([[bfBest bfIndex] bfDist] & Hbf & Hle & Hmin & Hbest).
  simpl in Hle, Hmin, Hbest. unfold bruteForceClosest. rewrite Hbf.
  destruct Hbest as [[= _ -> _]|(i & _ & Hbfi & Hd & Hlt)]; [done|].
  apply list_elem_of_lookup_2, Hfar in Hbfi. lia.
Qed.

Lemma bruteForceClosest_none_witness :
  length [0] = 1%nat ∧ Forall (λ p, length p = 1%nat) far_data ∧
  Forall (finite_point DBL_MAX) far_data ∧ finite_point DBL_MAX [0] ∧
  (∀ p, p ∈ far_data → DBL_MAX ≤ sqdist arith_double p [0]) ∧
  bruteForceClosest arith_double DBL_MAX far_data [0] = Ok (-1).
Proof.
  assert (Forall (λ p : list Z, length p = 1%nat) far_data) as Hdim
    by (repeat constructor).
  assert (∀ p, p ∈ far_data → DBL_MAX ≤ sqdist arith_double p [0]) as Hfar.
  { intros p ->%list_elem_of_singleton. vm_compute. discriminate. }
  assert (Forall (finite_point DBL_MAX) far_data) as Hfin
    by (repeat constructor).
  assert (finite_point DBL_MAX [0]) as Hqfin by (repeat constructor).
  split; [reflexivity|]. split; [exact Hdim|]. split; [exact Hfin|].
  split; [exact Hqfin|]. split; [exact Hfar|].
  apply (bruteForceClosest_none arith_double DBL_MAX 1 far_data [0]);
    [reflexivity | exact Hdim | exact Hfin | exact Hqfin | exact Hfar].
Defined.

(** The loop of [bruteForceClosest] over one point reads the coordinates
    of the point at the positions of the query only. *)
Lemma sq_loop_take ar (p query : list Z) (dist : Z) :
  (length query ≤ length p)%nat →
  sq_loop ar p query (seq 0 (length query)) dist
    = Ok (sq_sum ar dist (take (length query) p) query).
Proof.
  revert p dist. induction query as [|y query IH]; intros p dist Hlen.
  - by rewrite take_0.
  - destruct p as [|x p]; [simpl in Hlen; lia|].
    cbn [length seq]. rewrite <- fmap_S_seq. cbn [sq_loop].
    rewrite !at_of_nat. simpl. by rewrite sq_loop_cons, IH by (simpl in Hlen; lia).
Qed.

Lemma sq_loop_short ar (p query : list Z) (dist : Z) :
  (length p < length query)%nat →
  sq_loop ar p query (seq 0 (length query)) dist = Undefined.
Proof.
  revert p dist. induction query as [|y query IH]; intros p dist Hlen;
    [simpl in Hlen; lia|].
  cbn [length seq]. rewrite <- fmap_S_seq. cbn [sq_loop]. rewrite !at_of_nat.
  destruct p as [|x p]; [done|]. simpl.
  rewrite sq_loop_cons. apply IH. simpl in Hlen. lia.
Qed.

Lemma bruteForce_loop_take ar (query : list Z) (data : list (list Z))
    (dd : nat) (st1 st2 : list Z * Z * Z) :
  Forall (λ p, (length query ≤ length p)%nat) data →
  st1.1.2 = st2.1.2 → st1.2 = st2.2 →
  ∃ st1' st2',
    bruteForce_loop ar query dd data st1 = Ok st1' ∧
    bruteForce_loop ar query dd (take (length query) <$> data) st2 = Ok st2' ∧
    st1'.1.2 = st2'.1.2 ∧ st1'.2 = st2'.2.
Proof.
  intros Hdim. revert dd st1 st2.
  induction Hdim as [|p data Hp Hdim IH]; intros dd st1 st2 Hidx Hd.
  - exists st1, st2. done.
  - rewrite fmap_cons. cbn [bruteForce_loop]. unfold bruteForce_step.
    rewrite (sq_loop_take ar p) by done.
    rewrite (sq_loop_take ar (take (length query) p))
      by (rewrite length_take; lia).
    rewrite take_take, Nat.min_id, !bind_Ok_l, Hd.
    apply IH; case_bool_decide; done.
Qed.

(** X14: [bruteForceClosest] compares each point with the query on the
    first coordinates only, as many as the query has: for points with at
    least that many coordinates it returns what it returns on the points cut
    to the length of the query. *)
Theorem bruteForceClosest_ignores_extra (ar : arith) (T_max : Z)
    (data : list (list Z)) (query : list Z) :
  Forall (λ p, (length query ≤ length p)%nat) data →
  ∃ i,
    bruteForceClosest ar T_max data query = Ok i ∧
    bruteForceClosest ar T_max (take (length query) <$> data) query = Ok i.
Proof.
  intros Hdim.
  destruct (bruteForce_loop_take ar query data 0 ([], -1, T_max) ([], -1, T_max)
              Hdim eq_refl eq_refl)
    as (st1 & st2 & H1 & H2 & Hidx & _).
  exists st1.1.2. unfold bruteForceClosest. rewrite H1, H2, !bind_Ok_l.
  by rewrite Hidx.
Qed.

Lemma bruteForceClosest_ignores_extra_witness :
  Forall (λ p, (length [3] ≤ length p)%nat) sample_data ∧
  ∃ i,
    bruteForceClosest arith_double 1000 sample_data [3] = Ok i ∧
    bruteForceClosest arith_double 1000 (take (length [3]) <$> sample_data) [3] = Ok i.
Proof.
  assert (Forall (λ p : list Z, (length [3] ≤ length p)%nat) sample_data)
    as Hdim by (repeat constructor; simpl; lia).
  split; [exact Hdim|].
  apply (bruteForceClosest_ignores_extra arith_double 1000 sample_data [3]);
    exact Hdim.
Defined.

(** X15: when a point of the dataset has fewer coordinates than the query,
    [bruteForceClosest] reads that point out of range: the call has no
    defined outcome, wherever the point is in the dataset. *)
Theorem bruteForceClosest_short_point (ar : arith) (T_max : Z)
    (data : list (list Z)) (query p : list Z) :
  p ∈ data → (length p < length query)%nat →
  bruteForceClosest ar T_max data query = Undefined.
Proof.
  intros Hp Hshort. unfold bruteForceClosest.
  assert (∀ dd st, bruteForce_loop ar query dd data st = Undefined) as ->; [|done].
  induction data as [|p' data IH]; intros dd st;
    [by apply elem_of_nil in Hp|].
  cbn [bruteForce_loop]. unfold bruteForce_step.
  destruct (Nat.lt_ge_cases (length p') (length query)) as [Hlt|Hge].
  - by rewrite sq_loop_short.
  - rewrite sq_loop_take, !bind_Ok_l by done.
    apply IH. apply elem_of_cons in Hp as [->|Hp]; [lia | done].
Qed.

Lemma bruteForceClosest_short_point_witness :
  [3] ∈ ragged_data ∧ (length [3] < length [0; 0])%nat ∧
  bruteForceClosest arith_double 1000 ragged_data [0; 0] = Undefined.
Proof.
  assert ([3] ∈ ragged_data) as Hin
    by (unfold ragged_data; rewrite !elem_of_cons; tauto).
  split; [exact Hin|]. split; [simpl; lia|].
  apply (bruteForceClosest_short_point arith_double 1000 ragged_data [0; 0] [3]);
    [exact Hin | simpl; lia].
Defined.

(** * Further properties of the serialization *)

(** X16: every tree with a root, however it was made, that has no axis -1
    and finite coordinates only, its axes and indices being [int]s as they
    are in the code, is read back unchanged from what is written for it, and
    what follows it in the stream is left unread. *)
Theorem KDTree_read_write_any (T_max : Z) (root : KDNode) (rest : stream) :
  no_marker root → in_range T_max root →
  KDTree_read T_max (KDTree_write (mkKDTree (Some root)) ++ rest) KDTree_new
    = Some (rest, mkKDTree (Some root)).
Proof.
  intros Hroot Hrange.
  pose proof (read_child_write T_max (Some root) rest
                (length (KDNode_write root ++ rest)) Hroot Hrange) as H.
  cbn [KDNode_write_child child_height] in H.
  assert (height root ≤ length (KDNode_write root ++ rest))%nat as Hfuel.
  { rewrite length_app. pose proof (height_write root). lia. }
  specialize (H Hfuel).
  unfold KDTree_read, KDTree_write, KDTree_read_fuel. cbn [_rootNode].
  unfold read_child in H.
  destruct (intFromStream (KDNode_write root ++ rest)) as [axis i].
  case_bool_decide; [done|].
  destruct (KDNode_read_fuel _ _ _ _) as [[i' root']|]; [|done].
  simpl in H. by injection H as -> ->.
Qed.

Lemma KDTree_read_write_any_witness :
  no_marker lopsided_node ∧ in_range DBL_MAX lopsided_node ∧
  KDTree_read DBL_MAX
    (KDTree_write (mkKDTree (Some lopsided_node)) ++ [[7]; []]) KDTree_new
    = Some ([[7]; []], mkKDTree (Some lopsided_node)).
Proof.
  assert (no_marker lopsided_node) as Hno
    by (simpl; unfold NULLPTR_MARKER; lia).
  assert (in_range DBL_MAX lopsided_node) as Hrange.
  { simpl. unfold INT_MIN, INT_MAX. split_and!; try done; try lia;
      repeat constructor. }
  split; [exact Hno|]. split; [exact Hrange|].
  apply (KDTree_read_write_any DBL_MAX lopsided_node [[7]; []]);
    [exact Hno | exact Hrange].
Defined.

Lemma locations_write node :
  (length (KDNode_write node) = 4 * length (locations node) + 1)%nat.
Proof.
  induction node as [axis location leftNode rightNode IHl IHr] using KDNode_ind.
  rewrite KDNode_write_unfold. cbn [locations length].
  rewrite !length_app.
  destruct leftNode, rightNode; simpl in *; lia.
Qed.

(** X18: the tree built from [n] points is written on [8 n - 3] lines:
    three lines for each of its [2 n - 1] nodes and one line with -1 for each
    of the [2 n] absent children of its leaves. *)
Theorem KDTree_build_write_lines (nth_element : nth_element_t)
    (data : list (list Z)) (c : call bool) :
  nth_element_ok nth_element →
  KDTree_build nth_element data = Ok c →
  (length (KDTree_write (this_after c)) + 3 = 8 * length data)%nat.
Proof.
  intros Hok H. apply KDTree_build_Ok in H as (root & Hroot & ->).
  cbn [this_after]. unfold KDTree_write. cbn [_rootNode].
  rewrite locations_write.
  pose proof (KDNode_build_size _ Hok _ _ _ Hroot) as Hsize.
  rewrite length_imap in Hsize. lia.
Qed.

Lemma KDTree_build_write_lines_witness :
  nth_element_ok nth_element_sort ∧
  ∃ c, KDTree_build nth_element_sort sample_data = Ok c ∧
    (length (KDTree_write (this_after c)) + 3 = 8 * length sample_data)%nat.
Proof.
  split; [exact nth_element_sort_ok|].
  eexists. split; [reflexivity|].
  apply (KDTree_build_write_lines nth_element_sort sample_data);
    [exact nth_element_sort_ok | reflexivity].
Defined.

(** * The drivers *)

Lemma KDTree_nearestNeighbor_this (ar : arith) (T_max : Z) (tree : KDTree)
    (queryPoint : list Z) (c : call IndexedPoint) :
  KDTree_nearestNeighbor ar T_max tree queryPoint = Ok c → this_after c = tree.
Proof.
  unfold KDTree_nearestNeighbor. destruct (_rootNode tree) as [root|].
  - destruct (KDNode_nearestNeighbor ar root queryPoint _) as [[best d]| |];
      simpl; [|done..]. by intros [= <-].
  - by intros [= <-].
Qed.

(** The sum of absolute differences does not decrease, and stays where it
    is only if every pair of coordinates read is a pair of equal values. *)
Lemma diff_loop_Ok (best_point : list Z) (originalPoints : list (list Z))
    (bruteForceIndex : Z) (iis : list nat) (diff diff' : Z) :
  diff_loop best_point originalPoints bruteForceIndex iis diff = Ok diff' →
  diff ≤ diff' ∧
  (diff' ≤ diff → ∀ ii, ii ∈ iis →
     ∃ p x, 0 ≤ bruteForceIndex ∧
       originalPoints !! Z.to_nat bruteForceIndex = Some p ∧
       best_point !! ii = Some x ∧ p !! ii = Some x).
Proof.
  revert diff. induction iis as [|ii iis IH]; intros diff.
  - intros [= <-]. split; [lia|]. intros _ ii Hii. by apply elem_of_nil in Hii.
  - cbn [diff_loop]. rewrite !at_of_nat.
    intros (x & Hx & (p & Hp & (y & Hy & Hloop)%bind_Ok)%bind_Ok)%bind_Ok.
    apply IH in Hloop as [Hle Heq]. split; [lia|].
    intros Hdiff ii' [-> | Hii]%elem_of_cons.
    + apply at_Ok in Hp as [H0 Hp]. exists p, x. split_and!; try done.
      * by destruct (best_point !! ii) as [?|]; simplify_eq/=.
      * rewrite at_of_nat in Hy.
        destruct (p !! ii) as [?|]; simplify_eq/=. f_equal. lia.
    + apply Heq; [lia | done].
Qed.

Lemma diff_loop_same (p : list Z) (originalPoints : list (list Z)) (i : nat)
    (iis : list nat) (diff : Z) :
  originalPoints !! i = Some p → (∀ ii, ii ∈ iis → (ii < length p)%nat) →
  diff_loop p originalPoints (Z.of_nat i) iis diff = Ok diff.
Proof.
  intros Hp. revert diff. induction iis as [|ii iis IH]; intros diff Hiis;
    [done|].
  cbn [diff_loop].
  destruct (lookup_lt_is_Some_2 p ii) as [x Hx];
    [apply Hiis; by left|].
  rewrite (at_of_nat originalPoints), Hp, !(at_of_nat p), Hx. simpl.
  rewrite (at_of_nat p), Hx. simpl.
  rewrite Z.sub_diag, Z.abs_0, Z.add_0_r. apply IH.
  intros ii' Hii'. apply Hiis. by right.
Qed.

(** What the loop over the queries has written when it ends. *)
Lemma query_loop_results (ar : arith) (T_max : Z) (tree : KDTree)
    (data : list (list Z)) (queries : list (list Z)) (results : stream)
    (r : run) :
  query_loop ar T_max tree data queries results = Ok r →
  ∃ lines,
    outfile r = Some (results ++ lines) ∧
    Forall2 (verified ar T_max tree data) (take (length lines) queries) lines ∧
    (status r = 0 ∧ length lines = length queries ∨
     status r = 1 ∧ (length lines < length queries)%nat).
Proof.
  revert results. induction queries as [|query queries IH]; intros results.
  - intros [= <-]. exists []. rewrite app_nil_r. simpl.
    split_and!; [done|constructor|by left].
  - cbn [query_loop].
    intros (c & Hnn & (idx & Hbf & Hrest)%bind_Ok)%bind_Ok.
    assert (∀ results', Ok (mkRun 1 (Some results')) = Ok r → results' = results →
              ∃ lines, outfile r = Some (results ++ lines) ∧
                Forall2 (verified ar T_max tree data)
                  (take (length lines) (query :: queries)) lines ∧
                (status r = 0 ∧ length lines = length (query :: queries) ∨
                 status r = 1 ∧ (length lines < length (query :: queries))%nat))
      as Hstop.
    { intros ? [= <-] ->. exists []. rewrite app_nil_r. simpl.
      split_and!; [done|constructor|right; split; [done|lia]]. }
    destruct (bool_decide (index (returned c) ≠ idx)) eqn:Hidx;
      [by eapply Hstop|].
    apply bool_decide_eq_false in Hidx. apply dec_stable in Hidx. subst idx.
    apply bind_Ok in Hrest as (diff & Hdiff & Hrest).
    destruct (bool_decide (0 < diff)) eqn:Hpos; [by eapply Hstop|].
    apply bool_decide_eq_false in Hpos.
    rewrite (KDTree_nearestNeighbor_this _ _ _ _ _ Hnn) in Hrest.
    apply IH in Hrest as (lines & Hout & Hall & Hstatus).
    exists ([index (returned c)] :: lines).
    rewrite <- app_assoc in Hout. cbn [length take].
    split_and!; [done| |lia].
    constructor; [|done].
    apply diff_loop_Ok in Hdiff as [Hge Heq].
    destruct query as [|x query].
    { exists c, []. split_and!; done. }
    destruct (Heq ltac:(lia) 0%nat) as (p & _ & H0 & Hp & _);
      [simpl; by left|].
    exists c, p. split_and!; try done. intros _. split_and!; try done.
    apply list_eq. intros ii. rewrite !lookup_take.
    case_decide as Hii; [|done].
    destruct (Heq ltac:(lia) ii) as (p' & y & _ & Hp' & Hb & Hy).
    { apply elem_of_seq. lia. }
    congruence.
Qed.

(** X19: when [main] of query_kdtree.cpp exits with status 0, the results
    file has one line for each query, in order, and the index on it is
    verified: it is what the deserialized tree and the brute-force search
    both answer, and the coordinates of the tree's answer, as many as the
    query has, are those of the data point at that index. *)
Theorem query_kdtree_main_exit_0 (ar : arith) (T_max : Z)
    (treeFile dataFile queryFile : file) (r : run) :
  query_kdtree_main ar T_max treeFile dataFile queryFile = Ok r →
  status r = 0 →
  ∃ tree lines,
    read_tree T_max treeFile = Ok tree ∧ outfile r = Some lines ∧
    Forall2 (verified ar T_max tree (parse_points T_max dataFile))
      (parse_points T_max queryFile) lines.
Proof.
  unfold query_kdtree_main. intros (tree & Htree & Hrun)%bind_Ok Hstatus.
  unfold readPointsFromFile in Hrun.
  case_bool_decide; [by simplify_eq/=|].
  case_bool_decide; [by simplify_eq/=|].
  apply query_loop_results in Hrun as (lines & Hout & Hall & Hend).
  destruct Hend as [[_ Hlen]|[? _]]; [|lia].
  exists tree, lines. split_and!; try done.
  by rewrite Hlen, firstn_all in Hall.
Qed.

(** X20: the only other exit status is 1.  Then either one of the two
    files of points has no value on its first line and no results file was
    made, or the results file holds fewer lines than there are queries: the
    verified indices of the first queries, and nothing for the query at which
    the run stopped and for those after it. *)
Theorem query_kdtree_main_exit_1 (ar : arith) (T_max : Z)
    (treeFile dataFile queryFile : file) (r : run) :
  query_kdtree_main ar T_max treeFile dataFile queryFile = Ok r →
  status r ≠ 0 →
  status r = 1 ∧
  (outfile r = None ∧
   (first_line_dimension T_max dataFile = 0%nat ∨
    first_line_dimension T_max queryFile = 0%nat) ∨
   ∃ tree lines,
     read_tree T_max treeFile = Ok tree ∧ outfile r = Some lines ∧
     (length lines < length (parse_points T_max queryFile))%nat ∧
     Forall2 (verified ar T_max tree (parse_points T_max dataFile))
       (take (length lines) (parse_points T_max queryFile)) lines).
Proof.
  unfold query_kdtree_main. intros (tree & Htree & Hrun)%bind_Ok Hstatus.
  unfold readPointsFromFile in Hrun.
  case_bool_decide as Hd.
  { injection Hrun as <-. simpl. split; [done|]. left. split; [done|]. lia. }
  case_bool_decide as Hq.
  { injection Hrun as <-. simpl. split; [done|]. left. split; [done|]. lia. }
  apply query_loop_results in Hrun as (lines & Hout & Hall & Hend).
  destruct Hend as [[? _]|[? Hlen]]; [done|]. split; [done|].
  right. by exists tree, lines.
Qed.

Lemma query_kdtree_main_exit_0_witness :
  let r := mkRun 0 (Some [[0]; [3]]) in
  query_kdtree_main arith_double DBL_MAX sample_tree_file (Some sample_data)
    (Some [[0; 0]; [3; 4]]) = Ok r ∧
  status r = 0 ∧
  ∃ tree lines,
    read_tree DBL_MAX sample_tree_file = Ok tree ∧ outfile r = Some lines ∧
    Forall2 (verified arith_double DBL_MAX tree
               (parse_points DBL_MAX (Some sample_data)))
      (parse_points DBL_MAX (Some [[0; 0]; [3; 4]])) lines.
Proof.
  intros r.
  assert (query_kdtree_main arith_double DBL_MAX sample_tree_file
            (Some sample_data) (Some [[0; 0]; [3; 4]]) = Ok r) as Hrun
    by (vm_compute; reflexivity).
  split; [exact Hrun|]. split; [reflexivity|].
  apply (query_kdtree_main_exit_0 arith_double DBL_MAX sample_tree_file
           (Some sample_data) (Some [[0; 0]; [3; 4]]) r);
    [exact Hrun | reflexivity].
Defined.

Lemma query_kdtree_main_exit_1_witness :
  let r := mkRun 1 (Some []) in
  let queryFile : file := Some [[0; 0]] in
  query_kdtree_main arith_double DBL_MAX None (Some sample_data) queryFile
    = Ok r ∧
  status r ≠ 0 ∧
  status r = 1 ∧
  (outfile r = None ∧
   (first_line_dimension DBL_MAX (Some sample_data) = 0%nat ∨
    first_line_dimension DBL_MAX queryFile = 0%nat) ∨
   ∃ tree lines,
     read_tree DBL_MAX None = Ok tree ∧ outfile r = Some lines ∧
     (length lines < length (parse_points DBL_MAX queryFile))%nat ∧
     Forall2 (verified arith_double DBL_MAX tree
                (parse_points DBL_MAX (Some sample_data)))
       (take (length lines) (parse_points DBL_MAX queryFile)) lines).
Proof.
  intros r queryFile.
  assert (query_kdtree_main arith_double DBL_MAX None (Some sample_data)
            queryFile = Ok r) as Hrun by (vm_compute; reflexivity).
  split; [exact Hrun|]. split; [simpl; lia|].
  apply (query_kdtree_main_exit_1 arith_double DBL_MAX None
           (Some sample_data) queryFile r); [exact Hrun | simpl; lia].
Defined.

(** The loop over queries that have one nearest point each: the tree
    built from the data and the brute-force search both find it. *)
Lemma query_loop_unique (nth_element : nth_element_t) (ar : arith)
    (T_max : Z) (D : nat) (data : list (list Z)) (root : KDNode)
    (queries : list (list Z)) (answers : list nat) (results : stream) :
  nth_element_ok nth_element → arith_ok T_max ar →
  data ≠ [] → D ≠ 0%nat → Forall (λ p, length p = D) data →
  Forall (finite_point T_max) data →
  KDTree_build nth_element data = Ok (mkCall (mkKDTree (Some root)) [] true) →
  Forall (λ q, length q = D) queries →
  Forall (finite_point T_max) queries →
  Forall2 (nearest_at ar T_max data) queries answers →
  query_loop ar T_max (mkKDTree (Some root)) data queries results
    = Ok (mkRun 0 (Some (results ++ map (λ i, [Z.of_nat i]) answers))).
Proof.
  intros Hok Har Hne HD Hdim Hfin Hbuild Hqs Hqfin Hans. revert results.
  induction Hans as [|query i queries answers Hi Hans IH]; intros results.
  { simpl. by rewrite app_nil_r. }
  apply Forall_cons in Hqs as [Hq Hqs]. apply Forall_cons in Hqfin as [Hqf Hqfin].
  specialize (IH Hqs Hqfin).
  destruct Hi as (p & Hp & Hlt & Huniq).
  assert (p ∈ data) as Hin by (by eapply list_elem_of_lookup_2).
  assert (length p = D) as Hlen
    by (by eapply Forall_forall in Hdim; [|exact Hin]).
  (* the tree *)
  destruct (KDTree_nearestNeighbor_built nth_element ar T_max D data query)
    as (root' & best & Hbuild' & Hnn & Hidx & Hbest & _ & Hmin); try done.
  { by exists p. }
  rewrite Hbuild in Hbuild'. injection Hbuild' as <-.
  assert (Z.to_nat (index best) = i) as Hbi.
  { destruct (decide (Z.to_nat (index best) = i)) as [|Hneq]; [done|].
    specialize (Huniq _ _ Hbest Hneq). specialize (Hmin _ Hin). lia. }
  assert (point best = p) as Hbp by congruence.
  assert (index best = Z.of_nat i) as Hbidx by lia.
  (* the scan *)
  destruct (bruteForce_loop_scanned ar query D data 0 ([], -1, T_max) Hq Hdim)
    as (st' & Hloop & Hle & Hmin' & Hbest').
  assert (st'.1.2 = Z.of_nat i) as Hsi.
  { specialize (Hmin' _ Hin).
    destruct Hbest' as [->|(i' & Hidx' & Hi' & Hd' & _)]; [simpl in *; lia|].
    destruct (decide (i' = i)) as [->|Hneq]; [by rewrite Hidx'|].
    specialize (Huniq _ _ Hi' Hneq). lia. }
  cbn [query_loop]. rewrite Hnn, bind_Ok_l. cbn [returned this_after].
  unfold bruteForceClosest. rewrite Hloop, !bind_Ok_l, Hsi.
  rewrite bool_decide_eq_false_2 by (intros ?; lia).
  rewrite Hbp, diff_loop_same; [|done|]; last first.
  { intros ii Hii%elem_of_seq. lia. }
  rewrite bind_Ok_l, bool_decide_eq_false_2 by lia.
  rewrite IH, <- app_assoc, Hbidx. done.
Qed.

(** X21: the two drivers in a row.  On a data file whose lines all hold the
    same number [D > 0] of finite values, build_kdtree exits with status 0
    and writes a tree file; on this tree file, the data file and a file of at
    least one query, each of [D] finite values and each with one point of the
    data for which the least squared distance is computed, below [T_max],
    query_kdtree exits with status 0 too, and its results file holds, for
    each query in order, the position of that point in the data file. *)
Theorem build_then_query (nth_element : nth_element_t) (ar : arith)
    (T_max : Z) (D : nat) (data queries : list (list Z))
    (answers : list nat) :
  nth_element_ok nth_element → arith_ok T_max ar →
  D ≠ 0%nat → Z.of_nat D ≤ 2 ^ 31 → Z.of_nat (length data) ≤ 2 ^ 31 →
  queries ≠ [] →
  Forall (λ p, length p = D) data → Forall (λ q, length q = D) queries →
  Forall (finite_point T_max) data → Forall (finite_point T_max) queries →
  Forall2 (nearest_at ar T_max data) queries answers →
  ∃ treeFile,
    build_kdtree_main nth_element T_max (Some data)
      = Ok (mkRun 0 (Some treeFile)) ∧
    query_kdtree_main ar T_max (Some treeFile) (Some data) (Some queries)
      = Ok (mkRun 0 (Some (map (λ i, [Z.of_nat i]) answers))).
Proof.
  intros Hok Har HD HDint Hn Hqne Hdim Hqs Hfin Hqfin Hans.
  assert (data ≠ []) as Hne.
  { destruct Hans as [|q i ? ? (p & Hp & _) _]; [done|]. by intros ->. }
  assert (∀ points : list (list Z),
            points ≠ [] → Forall (λ p, length p = D) points →
            Forall (finite_point T_max) points →
            ¬ (first_line_dimension T_max (Some points) < 1)%nat) as Hfirst.
  { intros [|p points] ? Hlens Hfins; [done|].
    rewrite first_line_dimension_finite by (by inversion Hfins).
    inversion Hlens; lia. }
  destruct (KDTree_build_defined nth_element Hok D data Hne HD Hdim)
    as [root Hbuild].
  pose proof Hbuild as Hroot.
  apply KDTree_build_Ok in Hroot as (root' & Hroot & [= <-]).
  assert (Forall (λ p : list Z, Z.of_nat (length p) ≤ 2 ^ 31) data) as Hlen.
  { eapply Forall_impl; [exact Hdim|]. simpl. intros p ->. done. }
  destruct (KDTree_build_in_range _ T_max _ _ Hok Hn Hlen Hfin Hroot)
    as [Hmark Hrange].
  exists (KDNode_write root). split.
  - unfold build_kdtree_main.
    rewrite parse_points_finite by done.
    rewrite bool_decide_eq_false_2 by (by apply Hfirst).
    by rewrite Hbuild.
  - unfold query_kdtree_main, read_tree.
    change (KDNode_write root) with (KDTree_write (mkKDTree (Some root))).
    rewrite KDTree_read_write by done.
    rewrite bind_Ok_l. unfold readPointsFromFile.
    rewrite !parse_points_finite by done.
    rewrite !bool_decide_eq_false_2 by (by apply Hfirst).
    by rewrite (query_loop_unique nth_element ar T_max D data root queries
                  answers).
Qed.

Lemma build_then_query_witness :
  nth_element_ok nth_element_sort ∧ arith_ok DBL_MAX arith_double ∧
  2%nat ≠ 0%nat ∧ Z.of_nat 2 ≤ 2 ^ 31 ∧
  Z.of_nat (length sample_data) ≤ 2 ^ 31 ∧ [[0; 0]; [3; 4]] ≠ [] ∧
  Forall (λ p, length p = 2%nat) sample_data ∧
  Forall (λ q, length q = 2%nat) [[0; 0]; [3; 4]] ∧
  Forall (finite_point DBL_MAX) sample_data ∧
  Forall (finite_point DBL_MAX) [[0; 0]; [3; 4]] ∧
  Forall2 (nearest_at arith_double DBL_MAX sample_data) [[0; 0]; [3; 4]]
    [0; 3]%nat ∧
  ∃ treeFile,
    build_kdtree_main nth_element_sort DBL_MAX (Some sample_data)
      = Ok (mkRun 0 (Some treeFile)) ∧
    query_kdtree_main arith_double DBL_MAX (Some treeFile) (Some sample_data)
      (Some [[0; 0]; [3; 4]])
      = Ok (mkRun 0 (Some (map (λ i, [Z.of_nat i]) [0; 3]%nat))).
Proof.
  assert (Forall (λ p, length p = 2%nat) sample_data) as Hdim
    by (repeat constructor).
  assert (Forall (λ q : list Z, length q = 2%nat) [[0; 0]; [3; 4]]) as Hqs
    by (repeat constructor).
  assert (Forall (finite_point DBL_MAX) sample_data) as Hfin
    by (repeat constructor).
  assert (Forall (finite_point DBL_MAX) [[0; 0]; [3; 4]]) as Hqfin
    by (repeat constructor).
  assert (Forall2 (nearest_at arith_double DBL_MAX sample_data)
            [[0; 0]; [3; 4]] [0; 3]%nat) as Hans.
  { repeat constructor.
    - exists [0; 0]. split_and!; [done|vm_compute; reflexivity|].
      intros [|[|[|[|j]]]] pj [= <-] Hj; try done; vm_compute; reflexivity.
    - exists [3; 3]. split_and!; [done|vm_compute; reflexivity|].
      intros [|[|[|[|j]]]] pj [= <-] Hj; try done; vm_compute; reflexivity. }
  split_and!;
    [exact nth_element_sort_ok | exact (arith_double_ok DBL_MAX) | done
    | simpl; lia | simpl; lia | done | exact Hdim | exact Hqs | exact Hfin
    | exact Hqfin | exact Hans |].
  apply (build_then_query nth_element_sort arith_double DBL_MAX 2 sample_data
           [[0; 0]; [3; 4]] [0; 3]%nat);
    [exact nth_element_sort_ok | exact (arith_double_ok DBL_MAX) | done
    | simpl; lia | simpl; lia | done | exact Hdim | exact Hqs | exact Hfin
    | exact Hqfin | exact Hans].
Defined.

(** X22: on a data file whose lines all hold the same number of values,
    as far as they are read, build_kdtree has a defined behaviour.  If the first line holds no value,
    as in a file that is missing, empty or blank, it exits with status 1
    before it builds anything and writes no file; otherwise it exits with
    status 0 and writes a tree file of [8 n - 3] lines for [n] points. *)
Theorem build_kdtree_main_uniform (nth_element : nth_element_t) (T_max : Z)
    (D : nat) (dataFile : file) :
  nth_element_ok nth_element →
  Forall (λ p, length p = D) (parse_points T_max dataFile) →
  first_line_dimension T_max dataFile = 0%nat ∧
    build_kdtree_main nth_element T_max dataFile = Ok (mkRun 1 None) ∨
  first_line_dimension T_max dataFile = D ∧ D ≠ 0%nat ∧
    ∃ treeFile,
      build_kdtree_main nth_element T_max dataFile
        = Ok (mkRun 0 (Some treeFile)) ∧
      (length treeFile + 3 = 8 * length (parse_points T_max dataFile))%nat.
Proof.
  intros Hok Hdim. unfold build_kdtree_main.
  case_bool_decide as Hfirst; [left; split; [lia | done]|].
  right. destruct dataFile as [[|p data]|]; simpl in Hfirst; try lia.
  cbn [parse_points first_line_dimension getline fst] in *.
  rewrite fmap_cons in *.
  pose proof (Forall_inv Hdim) as Hp. simpl in Hp.
  assert (D ≠ 0%nat) as HD by lia.
  destruct (KDTree_build_defined nth_element Hok D
              (read_values T_max p :: (read_values T_max <$> data)))
    as [root Hbuild]; try done.
  split_and!; try done. exists (KDNode_write root).
  rewrite Hbuild. split; [done|].
  apply KDTree_build_Ok in Hbuild as (root' & Hroot & [= <-]).
  rewrite locations_write.
  pose proof (KDNode_build_size _ Hok _ _ _ Hroot) as Hsize.
  rewrite length_imap in Hsize. lia.
Qed.

Lemma build_kdtree_main_uniform_witness :
  nth_element_ok nth_element_sort ∧
  Forall (λ p, length p = 2%nat) (parse_points DBL_MAX (Some sample_data)) ∧
  (first_line_dimension DBL_MAX (Some sample_data) = 0%nat ∧
     build_kdtree_main nth_element_sort DBL_MAX (Some sample_data)
       = Ok (mkRun 1 None) ∨
   first_line_dimension DBL_MAX (Some sample_data) = 2%nat ∧ 2%nat ≠ 0%nat ∧
     ∃ treeFile,
       build_kdtree_main nth_element_sort DBL_MAX (Some sample_data)
         = Ok (mkRun 0 (Some treeFile)) ∧
       (length treeFile + 3
        = 8 * length (parse_points DBL_MAX (Some sample_data)))%nat).
Proof.
  assert (Forall (λ p, length p = 2%nat)
            (parse_points DBL_MAX (Some sample_data)))
    as Hdim by (repeat constructor).
  split; [exact nth_element_sort_ok|]. split; [exact Hdim|].
  apply (build_kdtree_main_uniform nth_element_sort DBL_MAX 2
           (Some sample_data));
    [exact nth_element_sort_ok | exact Hdim].
Defined.

(** X23: a tree file that is missing, empty, or starts with a line that
    is blank or holds -1 is not reported as such: query_kdtree goes on with
    the empty tree, whose answer to the first query has index -1, and exits
    with status 1 at that query, leaving an empty results file, as soon as
    for some point of the data a squared distance from that query below
    [T_max] is computed.  The coordinates are finite; nothing else is taken
    of the arithmetic. *)
Theorem query_kdtree_main_no_tree (ar : arith) (T_max : Z) (D : nat)
    (treeFile : file)
    (data : list (list Z)) (query : list Z) (queries : list (list Z)) :
  (∀ i, treeFile = Some i → (intFromStream i).1 = -1) →
  D ≠ 0%nat → Forall (λ p, length p = D) data → length query = D →
  Forall (finite_point T_max) data → finite_point T_max query →
  (∃ p, p ∈ data ∧ sqdist ar p query < T_max) →
  query_kdtree_main ar T_max treeFile (Some data) (Some (query :: queries))
    = Ok (mkRun 1 (Some [])).
Proof.
  intros Htree HD Hdim Hq Hfin Hqfin (p & Hin & Hlt).
  assert (read_tree T_max treeFile = Ok KDTree_new) as Hread.
  { destruct treeFile as [i|]; [|done]. specialize (Htree i eq_refl).
    unfold read_tree, KDTree_read, KDTree_read_fuel.
    destruct (intFromStream i) as [axis i']. simpl in Htree. subst axis.
    by rewrite bool_decide_eq_true_2. }
  unfold query_kdtree_main. rewrite Hread, bind_Ok_l.
  unfold readPointsFromFile.
  rewrite !bool_decide_eq_false_2; cycle 1.
  { rewrite first_line_dimension_finite by done. lia. }
  { destruct Hdim as [|p' data Hp _]; [by apply elem_of_nil in Hin|].
    rewrite first_line_dimension_finite by (by inversion Hfin). lia. }
  rewrite (parse_points_finite T_max data) by done.
  cbn [parse_points fmap list_fmap query_loop].
  rewrite (read_values_finite T_max query) by done.
  unfold KDTree_nearestNeighbor at 1.
  cbn [_rootNode KDTree_new]. rewrite bind_Ok_l. cbn [returned].
  destruct (bruteForce_loop_scanned ar query D data 0 ([], -1, T_max) Hq Hdim)
    as (st' & Hloop & Hle & Hmin & Hbest).
  unfold bruteForceClosest. rewrite Hloop, !bind_Ok_l.
  rewrite bool_decide_eq_true_2; [done|].
  specialize (Hmin _ Hin).
  destruct Hbest as [->|(i & Hidx & _)]; [simpl in *; lia|].
  rewrite Hidx. simpl. lia.
Qed.

Lemma query_kdtree_main_no_tree_witness :
  (∀ i, Some [[-1]] = Some i → (intFromStream i).1 = -1) ∧
  2%nat ≠ 0%nat ∧ Forall (λ p, length p = 2%nat) sample_data ∧
  length [3; 4] = 2%nat ∧
  Forall (finite_point DBL_MAX) sample_data ∧ finite_point DBL_MAX [3; 4] ∧
  (∃ p, p ∈ sample_data ∧ sqdist arith_double p [3; 4] < DBL_MAX) ∧
  query_kdtree_main arith_double DBL_MAX (Some [[-1]]) (Some sample_data)
    (Some ([3; 4] :: [[0; 0]])) = Ok (mkRun 1 (Some [])).
Proof.
  assert (∀ i : stream, Some [[-1]] = Some i → (intFromStream i).1 = -1)
    as Htree by (by intros i [= <-]).
  assert (Forall (λ p, length p = 2%nat) sample_data) as Hdim
    by (repeat constructor).
  assert (∃ p, p ∈ sample_data ∧ sqdist arith_double p [3; 4] < DBL_MAX)
    as Hnear.
  { exists [3; 3]. split; [|vm_compute; reflexivity].
    unfold sample_data. rewrite !elem_of_cons. tauto. }
  assert (Forall (finite_point DBL_MAX) sample_data) as Hfin
    by (repeat constructor).
  assert (finite_point DBL_MAX [3; 4]) as Hqfin by (repeat constructor).
  split_and!;
    [exact Htree | done | exact Hdim | done | exact Hfin | exact Hqfin
    | exact Hnear |].
  apply (query_kdtree_main_no_tree arith_double DBL_MAX 2 (Some [[-1]])
           sample_data [3; 4] [[0; 0]]);
    [exact Htree | done | exact Hdim | done | exact Hfin | exact Hqfin
    | exact Hnear].
Defined.

(** ** Rounding: the two points of [tie_data] and the query [[0, 0]]

    The first point is the nearer one, by one unit of squared distance, and
    the same squared distance is computed for both.  The brute-force scan
    keeps the first, the tree built from the two answers with the second, and
    query_kdtree, run on what build_kdtree wrote, exits with status 1 at that
    query. *)

Example rounding_tie :
  sqdist arith_exact [134217728; 16384] [0; 0] + 1
    = sqdist arith_exact [134217729; 0] [0; 0] ∧
  squaredDistance arith_double [134217728; 16384] [0; 0]
    = Ok 18014398777917440 ∧
  squaredDistance arith_double [134217729; 0] [0; 0]
    = Ok 18014398777917440 ∧
  ∃ tree treeFile,
    KDTree_build nth_element_sort tie_data = Ok (mkCall tree [] true) ∧
    KDTree_nearestNeighbor arith_double DBL_MAX tree [0; 0]
      = Ok (mkCall tree [] (mkIndexedPoint 1 [134217729; 0])) ∧
    bruteForceClosest arith_double DBL_MAX tie_data [0; 0] = Ok 0 ∧
    build_kdtree_main nth_element_sort DBL_MAX (Some tie_data)
      = Ok (mkRun 0 (Some treeFile)) ∧
    query_kdtree_main arith_double DBL_MAX (Some treeFile) (Some tie_data)
      (Some [[0; 0]]) = Ok (mkRun 1 (Some [])).
Proof.
  split; [vm_compute; reflexivity|]. split; [vm_compute; reflexivity|].
  split; [vm_compute; reflexivity|]. eexists _, _.
  split; [reflexivity|]. split; [vm_compute; reflexivity|].
  split; [vm_compute; reflexivity|]. split; [reflexivity|].
  vm_compute. reflexivity.
Qed.
